(** * commitgpt: a shallow embedding of [gitcommit.py]

    The script reads a git diff, asks a text-generation API for commit
    messages, cleans the reply up, prefixes the suggestions with a task
    identifier taken from the branch name, lets the user choose and commits.

    Python [str] values are modelled as lists of characters.  A character is
    one of Rocq's 8-bit [ascii] values, read as the code points U+0000 to
    U+00FF; on these, [str.isspace] and the regular-expression classes [\s]
    and [\d] are the predicates [is_space] and [is_digit] below. *)

From Stdlib Require Import String Ascii List ZArith QArith Lia.
From stdpp Require Import base option list gmap strings fin_maps.

#[local] Set Warnings "-register-all".
#[local] Open Scope list_scope.

Abbreviation str := (list ascii).

(** String literals are written as in the source and read as [str]. *)
Coercion list_ascii_of_string : string >-> list.

(** ** Characters *)

Definition code (c : ascii) : N := N_of_ascii c.

(** [Py_UNICODE_ISSPACE] on U+0000..U+00FF: TAB, LF, VT, FF, CR, the four
    separators FS GS RS US, SPACE, NEL and NBSP. *)
Definition is_space (c : ascii) : bool :=
  let n := code c in
  ((9 <=? n) && (n <=? 13) || (28 <=? n) && (n <=? 32)
   || (n =? 133) || (n =? 160))%N.

(** [\d]: the decimal digits. *)
Definition is_digit (c : ascii) : bool :=
  let n := code c in ((48 <=? n) && (n <=? 57))%N.

(** The character class of the two quote characters, the single quote and
    the double quote (code 34), written [[q]] in the patterns below. *)
Definition is_quote (c : ascii) : bool :=
  bool_decide (c = "'"%char) || bool_decide (c = "034"%char).

(** The line feed, Python's ['\n']. *)
Definition LF : ascii := "010"%char.

Definition is_char (a c : ascii) : bool := bool_decide (c = a).
Arguments is_char a%_char c.

(** ** [str] built-ins *)

(** [s.lstrip()] *)
Fixpoint lstrip (s : str) : str :=
  match s with
  | c :: s' => if is_space c then lstrip s' else s
  | [] => []
  end.

(** [s.rstrip()] *)
Definition rstrip (s : str) : str := reverse (lstrip (reverse s)).

(** [s.strip()] *)
Definition strip (s : str) : str := rstrip (lstrip s).

(** [s.startswith(p)] *)
Fixpoint startswith (s p : str) {struct p} : bool :=
  match p, s with
  | [], _ => true
  | a :: p', c :: s' => bool_decide (c = a) && startswith s' p'
  | _ :: _, [] => false
  end.

(** [s.split(sep)] for a non-empty separator: the text is scanned from the
    left; where the separator starts, the current piece is closed and the
    separator is skipped.  [split_go sep skip s] returns the piece being
    read and the pieces after it; [skip] counts the characters of a
    separator that are still to be passed over. *)
Fixpoint split_go (sep : str) (skip : nat) (s : str) : str * list str :=
  match s with
  | [] => ([], [])
  | c :: s' =>
      match skip with
      | S k => split_go sep k s'
      | O =>
          if startswith s sep
          then ([], let '(p, ps) := split_go sep (length sep - 1) s' in p :: ps)
          else let '(p, ps) := split_go sep 0 s' in (c :: p, ps)
      end
  end.

Definition split (s sep : str) : list str :=
  let '(p, ps) := split_go sep 0 s in p :: ps.

(** [sep.join(pieces)] *)
Fixpoint join (sep : str) (pieces : list str) : str :=
  match pieces with
  | [] => []
  | [p] => p
  | p :: ps => p ++ sep ++ join sep ps
  end.

(** A list comprehension [[f(x) for x in l if p(x)]]. *)
Fixpoint comprehension {A B} (f : A → B) (p : A → bool) (l : list A) : list B :=
  match l with
  | [] => []
  | x :: l' => if p x then f x :: comprehension f p l' else comprehension f p l'
  end.

(** [str.isprintable] on U+0000..U+00FF: not the control characters
    (U+0000 to U+001F, U+007F to U+009F), not the no-break space and not the
    soft hyphen. *)
Definition is_printable (c : ascii) : bool :=
  let n := code c in
  ((32 <=? n) && (n <? 127) || (161 <=? n) && negb (n =? 173))%N.

Definition hexdigit (n : N) : ascii :=
  nth (N.to_nat n) ("0123456789abcdef" : str) "0"%char.

(** One character of [repr(s)], between the quotes [quote]. *)
Definition repr_char (quote c : ascii) : str :=
  if bool_decide (c = quote) || is_char "\" c then ["\"%char; c]
  else if is_char "009" c then "\t"
  else if is_char LF c then "\n"
  else if is_char "013" c then "\r"
  else if is_printable c then [c]
  else "\x" ++ [hexdigit (code c / 16); hexdigit (code c mod 16)].

(** The characters that [repr] writes as they are between the quotes
    [quote]. *)
Definition plain_for (quote c : ascii) : bool :=
  is_printable c && negb (bool_decide (c = quote)) && negb (is_char "\" c).

(** [repr(s)]: the text between single quotes, or between double quotes
    when it holds a single quote and no double quote; the quote in use and
    the backslash are escaped, and so is what cannot be printed. *)
Definition repr (s : str) : str :=
  let quote : ascii :=
    if bool_decide ("'"%char ∈ s) && negb (bool_decide ("034"%char ∈ s))
    then "034"%char else "'"%char in
  quote :: concat (repr_char quote <$> s) ++ [quote].

(** [repr(l)] for a list of [str]; it is also [str(l)], and what an
    f-string writes for [{l}]. *)
Definition repr_list (l : list str) : str :=
  "[" ++ join ", " (repr <$> l) ++ "]".

(** ** The response normalizer *)

(** Each [re.sub(pattern, repl, message)] of [normalize_message_filter] is
    one function of this module, named after what its pattern matches.
    None of the patterns matches the empty string, and [re.sub] replaces the
    matches it finds scanning from the left, never rescanning its output. *)
Module Re.

(** [\d*] at the start of [s]: the text after the digits. *)
Fixpoint skip_digits (s : str) : str :=
  match s with
  | c :: s' => if is_digit c then skip_digits s' else s
  | [] => []
  end.

(** The group [( \d+\. | - | \* )] at the start of [s]: the text after it.
    [\d+] is greedy, and a run of digits that is not followed by a dot
    cannot be shortened into one that is. *)
Definition marker (s : str) : option str :=
  match s with
  | c :: s' =>
      if is_digit c then
        match skip_digits s' with
        | d :: r => if is_char "." d then Some r else None
        | [] => None
        end
      else if is_char "-" c || is_char "*" c then Some s'
      else None
  | [] => None
  end.

(** [re.sub] of the pattern [^( \d+\. | - | \* )\s+] (written here with
    spaces around the alternatives) by nothing: [^] matches at index 0
    only, so there is at most one match; [\s+] takes all the white space
    there is and needs at least one character of it. *)
Definition sub_list_marker (s : str) : str :=
  match marker s with
  | Some (c :: r) => if is_space c then lstrip r else s
  | _ => s
  end.

(** [re.sub] of the pattern [^[q]] by nothing. *)
Definition sub_initial_quote (s : str) : str :=
  match s with
  | c :: s' => if is_quote c then s' else s
  | [] => []
  end.

(** [re.sub] of the pattern [[q]$] by nothing: [$] matches at the end of
    the string and also just before a line feed that ends the string. *)
Definition sub_trailing_quote (s : str) : str :=
  match reverse s with
  | c :: r =>
      if is_quote c then reverse r
      else if is_char LF c then
        match r with
        | q :: r' => if is_quote q then reverse (c :: r') else s
        | [] => s
        end
      else s
  | [] => s
  end.

(** [re.sub] of the pattern [[q]:] by a colon. *)
Fixpoint sub_quote_colon (s : str) : str :=
  match s with
  | q :: (c :: r) as t =>
      if is_quote q && is_char ":" c then ":"%char :: sub_quote_colon r
      else q :: sub_quote_colon t
  | _ => s
  end.

(** [re.sub] of the pattern [:[q]] by a colon. *)
Fixpoint sub_colon_quote (s : str) : str :=
  match s with
  | c :: (q :: r) as t =>
      if is_char ":" c && is_quote q then ":"%char :: sub_colon_quote r
      else c :: sub_colon_quote t
  | _ => s
  end.

(** [re.sub] of the pattern [\\n] by nothing: the pattern is a backslash
    followed by the letter n, two characters of the message. *)
Fixpoint sub_backslash_n (s : str) : str :=
  match s with
  | b :: (n :: r) as t =>
      if is_char "\" b && is_char "n" n then sub_backslash_n r
      else b :: sub_backslash_n t
  | _ => s
  end.

End Re.

(** [normalize_message_filter(message)] *)
Definition normalize_message_filter (message : str) : str :=
  let message := strip message in
  let message := Re.sub_list_marker message in
  let message := Re.sub_initial_quote message in
  let message := Re.sub_trailing_quote message in
  let message := Re.sub_quote_colon message in
  let message := Re.sub_colon_quote message in
  let message := Re.sub_backslash_n message in
  strip message.

(** [normalize_messages(response)]: [response.split('\n')[1:]], then the
    comprehension over the lines longer than one character. *)
Definition normalize_messages (response : str) : list str :=
  let messages := tail (split response [LF]) in
  comprehension normalize_message_filter (λ message, 1 <? length message) messages.

(** ** JSON values, as [json.load] and [response.json()] return them *)

(** A Python [float]: a finite value (given exactly) or one of the three
    special values that [json.load] accepts. *)
Inductive pyfloat := Finite (q : Q) | PosInf | NegInf | NaN.

Inductive json :=
| JNull
| JBool (b : bool)
| JInt (z : Z)
| JFloat (x : pyfloat)
| JStr (s : str)
| JArr (l : list json)
| JObj (d : gmap str json).

(** ** Exceptions *)

Inductive exn :=
| CalledProcessError | KeyboardInterrupt
| KeyError | IndexError | TypeError | AttributeError
| ValueError | OSError | HTTPError | EOFError.

#[export] Instance exn_eq_dec : EqDecision exn.
Proof. solve_decision. Defined.

(** The tests of the [except] clauses; [except Exception] catches everything
    here but [KeyboardInterrupt]. *)
Definition is_CalledProcessError (e : exn) : bool := bool_decide (e = CalledProcessError).
Definition is_KeyboardInterrupt (e : exn) : bool := bool_decide (e = KeyboardInterrupt).
Definition is_Exception (e : exn) : bool := negb (is_KeyboardInterrupt e).

Inductive outcome (A : Type) := Ret (a : A) | Raise (e : exn).
Arguments Ret {A} a.
Arguments Raise {A} e.

(** [v[k]] for a string key. *)
Definition getitem (v : json) (k : str) : outcome json :=
  match v with
  | JObj d => match d !! k with Some x => Ret x | None => Raise KeyError end
  | _ => Raise TypeError
  end.

(** [v[i]] for an index that is not negative: lists and strings are
    indexed, a dict from JSON has no integer key. *)
Definition getindex (v : json) (i : nat) : outcome json :=
  match v with
  | JArr l => match l !! i with Some x => Ret x | None => Raise IndexError end
  | JStr s => match s !! i with Some c => Ret (JStr [c]) | None => Raise IndexError end
  | JObj _ => Raise KeyError
  | _ => Raise TypeError
  end.

(** [v[k] = x] *)
Definition setitem (v : json) (k : str) (x : json) : outcome json :=
  match v with
  | JObj d => Ret (JObj (<[k := x]> d))
  | _ => Raise TypeError
  end.

(** [v == s] for a string [s]. *)
Definition eq_str (v : json) (s : str) : bool :=
  match v with JStr t => bool_decide (t = s) | _ => false end.

(** [n > v] for an [int] [n]: numbers compare by value ([True] is 1), a
    comparison with NaN is false, anything else is a [TypeError]. *)
Definition int_gt (n : Z) (v : json) : outcome bool :=
  match v with
  | JInt m => Ret (bool_decide (m < n)%Z)
  | JBool b => Ret (bool_decide ((if b then 1 else 0) < n)%Z)
  | JFloat (Finite q) => Ret (match (q ?= inject_Z n)%Q with Lt => true | _ => false end)
  | JFloat PosInf | JFloat NaN => Ret false
  | JFloat NegInf => Ret true
  | _ => Raise TypeError
  end.

(** ** The constants of the script *)

Definition MODEL_NAME : str := "MODEL_NAME".
Definition OPENAI_API_KEY : str := "OPENAI_API_KEY".
Definition TASK_PREFIX : str := "TASK_PREFIX".
Definition OPENAI_API_URL : str := "OPENAI_API_URL".
Definition MAX_TOKEN_COUNT : str := "MAX_TOKEN_COUNT".
Definition TEMPERATURE : str := "TEMPERATURE".
Definition GIT_COMMAND : str := "GIT_COMMAND".
Definition MESSAGE_TEMPLATE : str := "MESSAGE_TEMPLATE".
Definition YOUR_TOKEN_KEY : str := "YOUR_TOKEN_KEY".
Definition YOUR_TASK_PREFIX : str := "YOUR_TASK_PREFIX".

(** ** Response processing *)

(** What the script uses of a [requests.Response]: the status code and the
    body as [response.json()] decodes it ([None] when the body is not JSON
    and the call raises a decoding error, a [ValueError]). *)
Record response := Response {
  status_code : nat;
  response_body : option json;
}.

Definition response_json (r : response) : outcome json :=
  match response_body r with Some body => Ret body | None => Raise ValueError end.

Definition obind {A B} (o : outcome A) (k : A → outcome B) : outcome B :=
  match o with Ret a => k a | Raise e => Raise e end.

(** [try: o except Exception as e: handler(e)] *)
Definition except_Exception {A} (o : outcome A) (handler : exn → outcome A) : outcome A :=
  match o with
  | Raise e => if is_Exception e then handler e else Raise e
  | Ret a => Ret a
  end.

(** [normalize_messages(content)] on a decoded JSON value: only a [str] has
    the method [split]. *)
Definition normalize_messages_of (content : json) : outcome (list str) :=
  match content with
  | JStr s => Ret (normalize_messages s)
  | _ => Raise AttributeError
  end.

(** [response.json()['choices'][0]['message']['content']] *)
Definition content_of (r : response) : outcome json :=
  obind (response_json r) (λ body,
  obind (getitem body "choices") (λ choices,
  obind (getindex choices 0) (λ choice,
  obind (getitem choice "message") (λ message,
  getitem message "content")))).

(** [process_response(response)] *)
Definition process_response (response : option response) : outcome (list str) :=
  match response with
  | None => Ret []
  | Some r =>
      except_Exception
        (obind (content_of r) (λ content, normalize_messages_of content))
        (λ _, Ret [])
  end.

(** ** The outside world

    Every call that leaves the script is an event of the run, recorded with
    its arguments and its result.  The entry of each function of the
    pipeline is recorded too, which makes the order of the stages that have
    no outside effect observable. *)

Inductive func :=
| F_load_config | F_get_git_diff | F_process_diff | F_get_commit_suggestions
| F_check_token_count_and_get_confirmation | F_count_tokens
| F_prepare_request_data | F_send_request_to_openai | F_process_response
| F_add_prefix_to_suggestions | F_get_prefix_name | F_get_current_branch
| F_prompt_for_commit_message | F_create_custom_commit_message | F_make_commit.

Inductive event :=
| Enter (f : func)
| ReadConfig (r : outcome json)
    (** [open(config_path)] and [json.load] *)
| Input (prompt : str) (r : outcome str)
    (** [input(prompt)] *)
| WriteConfig (config : json) (r : outcome ())
    (** [open(config_path, 'w')] and [json.dump(config, ...)] *)
| GitDiff (cmd : json) (r : outcome str)
    (** [subprocess.check_output(config[GIT_COMMAND])] *)
| CountTokens (model : json) (text : str) (r : outcome nat)
    (** [len(tiktoken.encoding_for_model(model).encode(text))] *)
| Confirm (r : outcome (option bool))
    (** the confirmation [prompt] and [answers.get('proceed')] *)
| Post (url key : json) (data : str) (r : outcome response)
    (** [requests.post(url, headers=..., data=data)] *)
| GitBranch (r : outcome str)
    (** [subprocess.check_output] of [git rev-parse --abbrev-ref HEAD] *)
| Choose (choices : list str) (r : outcome (option str))
    (** the list [prompt]; [None] when the answers have no ['commit'] *)
| GitCommit (commit_message : str) (r : outcome str).
    (** [subprocess.check_output] of [git commit -m commit_message] *)

(** The answers of the world may depend on everything that happened
    before ([history]).  The last three fields are functions of Python's
    library whose results the script only passes on. *)
Record World := {
  read_config : list event → outcome json;
  input : list event → str → outcome str;
  write_config : list event → json → outcome ();
  git_diff : list event → json → outcome str;
  count : list event → json → str → outcome nat;
  confirm : list event → outcome (option bool);
  post : list event → json → json → str → outcome response;
  git_branch : list event → outcome str;
  choose : list event → list str → outcome (option str);
  git_commit : list event → str → outcome str;
  json_dumps : json → str;
    (** [json.dumps(data)] *)
  join_space : json → outcome str;
    (** [' '.join(v)] *)
  format : json → str → str → outcome str;
    (** [template.format(git_command=..., diff=...)] *)
}.

(** A computation reads the history and returns its result with the events
    it added. *)
Definition M (A : Type) : Type := list event → outcome A * list event.

Definition ret {A} (a : A) : M A := λ _, (Ret a, []).
Definition raise {A} (e : exn) : M A := λ _, (Raise e, []).
Definition lift {A} (o : outcome A) : M A := λ _, (o, []).

Definition bind {A B} (m : M A) (k : A → M B) : M B := λ h,
  match m h with
  | (Ret a, t) => let '(r, t') := k a (h ++ t) in (r, t ++ t')
  | (Raise e, t) => (Raise e, t)
  end.

(** [try: m except ...: handler]; the handler re-raises what its [except]
    clauses do not name. *)
Definition try {A} (m : M A) (handler : exn → M A) : M A := λ h,
  match m h with
  | (Raise e, t) => let '(r, t') := handler e (h ++ t) in (r, t ++ t')
  | (Ret a, t) => (Ret a, t)
  end.

(** One call to the world. *)
Definition ask {A} (answer : list event → outcome A) (ev : outcome A → event) : M A :=
  λ h, let r := answer h in (r, [ev r]).

(** A call of one of the script's functions. *)
Definition call {A} (f : func) (m : M A) : M A := λ h,
  let '(r, t) := m (h ++ [Enter f]) in (r, Enter f :: t).

#[export] Instance M_ret : MRet M := @ret.
#[export] Instance M_bind : MBind M := λ A B k m, bind m k.

(** ** The pipeline *)

Section Pipeline.

Context (W : World).

(** [load_config()] *)
Definition load_config : M json :=
  try (
    config ← ask (read_config W) ReadConfig;
    key ← lift (getitem config OPENAI_API_KEY);
    config ←
      (if eq_str key YOUR_TOKEN_KEY then
         answer ← ask (λ h, input W h "Please enter your OpenAI API key: ")
                      (Input "Please enter your OpenAI API key: ");
         lift (setitem config OPENAI_API_KEY (JStr answer))
       else mret config);
    prefix ← lift (getitem config TASK_PREFIX);
    config ←
      (if eq_str prefix YOUR_TASK_PREFIX then
         answer ← ask (λ h, input W h "Please enter your task prefix: ")
                      (Input "Please enter your task prefix: ");
         config ← lift (setitem config TASK_PREFIX (JStr answer));
         ask (λ h, write_config W h config) (WriteConfig config);;
         mret config
       else mret config);
    mret config)
  (λ e, raise e).

(** [get_git_diff(config)] *)
Definition get_git_diff (config : json) : M (option str) :=
  try (
    cmd ← lift (getitem config GIT_COMMAND);
    output ← ask (λ h, git_diff W h cmd) (GitDiff cmd);
    mret (Some output))
  (λ e, if is_CalledProcessError e then mret None else raise e).

(** [count_tokens(text, config)] *)
Definition count_tokens (text : str) (config : json) : M nat :=
  model ← lift (getitem config MODEL_NAME);
  ask (λ h, count W h model text) (CountTokens model text).

(** [prepare_request_data(diff, config)] *)
Definition prepare_request_data (diff : str) (config : json) : outcome json :=
  obind (getitem config GIT_COMMAND) (λ cmd,
  obind (join_space W cmd) (λ git_command,
  obind (getitem config MESSAGE_TEMPLATE) (λ template,
  obind (format W template git_command diff) (λ message_content,
  obind (getitem config MODEL_NAME) (λ model,
  obind (getitem config TEMPERATURE) (λ temperature,
  Ret (JObj (<["model" : str := model]>
            (<["messages" : str :=
                 JArr [JObj (<["role" : str := JStr "user"]>
                            (<["content" : str := JStr message_content]> ∅))]]>
            (<["temperature" : str := temperature]> ∅)))))))))).

(** [check_token_count_and_get_confirmation(diff, config)] *)
Definition check_token_count_and_get_confirmation (diff : str) (config : json) : M bool :=
  data ← call F_prepare_request_data (lift (prepare_request_data diff config));
  token_count ← call F_count_tokens (count_tokens (json_dumps W data) config);
  limit ← lift (getitem config MAX_TOKEN_COUNT);
  over ← lift (int_gt (Z.of_nat token_count) limit);
  if over : bool then
    proceed ← ask (confirm W) Confirm;
    if negb (default false proceed) then mret false else mret true
  else mret true.

(** [send_request_to_openai(data, config)] *)
Definition send_request_to_openai (data : json) (config : json) : M (option response) :=
  key ← lift (getitem config OPENAI_API_KEY);
  try (
    url ← lift (getitem config OPENAI_API_URL);
    response ← ask (λ h, post W h url key (json_dumps W data))
                   (Post url key (json_dumps W data));
    (if bool_decide (400 ≤ status_code response < 600) then raise HTTPError else mret ());;
    lift (response_json response);;
    mret (Some response))
  (λ e, if is_KeyboardInterrupt e then mret None else mret None).

(** [get_current_branch()] *)
Definition get_current_branch : M (option str) :=
  try (
    output ← ask (git_branch W) GitBranch;
    mret (Some (strip output)))
  (λ e, if is_CalledProcessError e then mret None else raise e).

(** [add_prefix_to_suggestions(suggestions)] *)
Definition add_prefix_to_suggestions (suggestions : list str) : M (list str) :=
  branch_name ← call F_get_current_branch get_current_branch;
  match branch_name with
  | Some branch_name =>
      if startswith branch_name "feature/IOS-" then
        let task_id := List.last (split (hd [] (split branch_name "--")) "/") [] in
        let prefix := task_id ++ ": " in
        mret (comprehension (λ s, prefix ++ strip s)
                            (λ s, negb (bool_decide (strip s = ""))) suggestions)
      else mret suggestions
  | None => mret suggestions
  end.

(** [get_prefix_name()] *)
Definition get_prefix_name : M str :=
  branch_name ← call F_get_current_branch get_current_branch;
  match branch_name with
  | Some branch_name =>
      if startswith branch_name "feature/IOS-" then
        let task_id := List.last (split (hd [] (split branch_name "--")) "/") [] in
        mret (task_id ++ ": ")
      else mret ("" : str)
  | None => mret ("" : str)
  end.

(** [add_prefix_if_needed(commit_message)].  [TASK_PREFIX] is the constant
    of the script, the name of the configuration key; [task_id] is the list
    that [split] returns, and the f-string writes its [repr]. *)
Definition add_prefix_if_needed (commit_message : str) : M str :=
  branch_name ← call F_get_current_branch get_current_branch;
  match branch_name with
  | Some branch_name =>
      if startswith branch_name TASK_PREFIX then
        let parts := split branch_name "--" in
        if 1 <? length parts then
          let task_id := split (hd [] parts) "/" in
          mret (repr_list task_id ++ ": " ++ commit_message)
        else mret commit_message
      else mret commit_message
  | None => mret commit_message
  end.

(** [get_commit_suggestions(diff, config)] *)
Definition get_commit_suggestions (diff : str) (config : json) : M (option (list str)) :=
  ok ← call F_check_token_count_and_get_confirmation
         (check_token_count_and_get_confirmation diff config);
  if negb ok then mret None else
  data ← call F_prepare_request_data (lift (prepare_request_data diff config));
  response ← call F_send_request_to_openai (send_request_to_openai data config);
  suggestions ← call F_process_response (lift (process_response response));
  suggestions ← call F_add_prefix_to_suggestions (add_prefix_to_suggestions suggestions);
  mret (Some suggestions).

(** [make_commit(commit_message)] *)
Definition make_commit (commit_message : str) : M (option str) :=
  try (
    output ← ask (λ h, git_commit W h commit_message) (GitCommit commit_message);
    mret (Some output))
  (λ e, if is_CalledProcessError e then mret None else raise e).

(** [create_custom_commit_message()] *)
Definition create_custom_commit_message : M str :=
  commit_message ← ask (λ h, input W h "Enter your commit message: ")
                       (Input "Enter your commit message: ");
  prefix ← call F_get_prefix_name get_prefix_name;
  mret (prefix ++ commit_message).

(** [prompt_for_commit_message(commit_suggestions)] *)
Definition prompt_for_commit_message (commit_suggestions : list str) : M str :=
  let commit_suggestions := commit_suggestions ++ ["Enter your own commit message" : str] in
  answers ← ask (λ h, choose W h commit_suggestions) (Choose commit_suggestions);
  commit_message ← lift (match answers with Some m => Ret m | None => Raise KeyError end);
  if bool_decide (commit_message = ("Enter your own commit message" : str)) then
    call F_create_custom_commit_message create_custom_commit_message
  else mret commit_message.

(** [process_diff(diff, config)] *)
Definition process_diff (diff : str) (config : json) : M () :=
  commit_suggestions ← call F_get_commit_suggestions (get_commit_suggestions diff config);
  match commit_suggestions with
  | Some ((_ :: _) as commit_suggestions) =>
      commit_message ← call F_prompt_for_commit_message
                         (prompt_for_commit_message commit_suggestions);
      call F_make_commit (make_commit commit_message);;
      mret ()
  | Some [] | None => mret ()
  end.

(** [main()], after the command line is parsed and logging configured. *)
Definition main : M () :=
  try (
    config ← call F_load_config load_config;
    diff ← call F_get_git_diff (get_git_diff config);
    match diff with
    | Some ((_ :: _) as diff) => call F_process_diff (process_diff diff config)
    | Some [] | None => mret ()
    end)
  (λ e, if is_KeyboardInterrupt e then mret () else raise e).

(** The script run as a program: [main()] inside [try], with
    [except Exception] logging what was raised and going on to the end. *)
Definition script : M () :=
  try main (λ e, if is_Exception e then mret () else raise e).

End Pipeline.

(** ** The vocabulary of the specification *)

(** [p] is the portion of [s] before the first occurrence of [sep], all of
    [s] when [sep] does not occur. *)
Definition before_first (sep s p : str) : Prop :=
  (∃ rest, s = p ++ sep ++ rest ∧ ∀ a b, s = a ++ sep ++ b → length p ≤ length a)
  ∨ (p = s ∧ ∀ a b, s ≠ a ++ sep ++ b).

(** [seg] is the last segment of [s] when [s] is cut at the character [c]. *)
Definition last_segment (c : ascii) (s seg : str) : Prop :=
  (c ∉ seg) ∧ (s = seg ∨ ∃ pre, s = pre ++ c :: seg).

(** The task identifier of a branch name: the last segment between slashes
    of what comes before the first double dash. *)
Definition is_task_id (branch_name task_id : str) : Prop :=
  ∃ head, before_first "--" branch_name head ∧ last_segment "/" head task_id.

(** A suggestion that is empty or holds white space only. *)
Definition blank (s : str) : Prop := Forall (λ c, is_space c = true) s.

#[export] Instance blank_dec (s : str) : Decision (blank s).
Proof. unfold blank. apply _. Defined.

(** A list marker: digits and a dot, a dash, or a star. *)
Definition list_marker (m : str) : Prop :=
  (∃ digits, digits ≠ [] ∧ Forall (λ c, is_digit c = true) digits ∧ m = digits ++ ".")
  ∨ m = "-" ∨ m = "*".

(** One quote character, or nothing. *)
Definition optional_quote (q : str) : Prop :=
  q = [] ∨ ∃ c, is_quote c = true ∧ q = [c].

(** A message with nothing in it for normalization to take away: it is not
    empty, has no white space around it, and holds no quote and no
    backslash. *)
Definition bare (message : str) : Prop :=
  message ≠ [] ∧ strip message = message
  ∧ Forall (λ c, is_quote c = false ∧ c ≠ "\"%char) message.

(** [t] is [s] without the white space around it. *)
Definition stripped_of (s t : str) : Prop :=
  ∃ ws1 ws2, s = ws1 ++ t ++ ws2 ∧ blank ws1 ∧ blank ws2
    ∧ (∀ c r, t = c :: r → is_space c = false)
    ∧ (∀ r c, t = r ++ [c] → is_space c = false).

(** [t] is [s] without its initial list marker and all the white space
    after it, for an [s] that starts with a list marker and white space;
    any other [s] is left as it is. *)
Definition without_marker (s t : str) : Prop :=
  (∃ m ws, list_marker m ∧ blank ws ∧ ws ≠ [] ∧ s = m ++ ws ++ t
           ∧ ∀ c r, t = c :: r → is_space c = false)
  ∨ (t = s ∧ ¬ ∃ m ws r, list_marker m ∧ blank ws ∧ ws ≠ [] ∧ s = m ++ ws ++ r).

(** [t] is [s] without the quote that it starts with, if it starts with
    one. *)
Definition without_initial_quote (s t : str) : Prop :=
  (∃ q, is_quote q = true ∧ s = q :: t)
  ∨ (t = s ∧ ∀ c r, s = c :: r → is_quote c = false).

(** [t] is [s] without the quote that it ends with, if it ends with one. *)
Definition without_trailing_quote (s t : str) : Prop :=
  (∃ q, is_quote q = true ∧ s = t ++ [q])
  ∨ (t = s ∧ ∀ r c, s = r ++ [c] → is_quote c = false).

(** [s] without the characters that [del] names; [del] sees each character
    between the one before it and the one after it in [s]. *)
Fixpoint delete_in_context (del : option ascii → ascii → option ascii → bool)
    (before : option ascii) (s : str) : str :=
  match s with
  | [] => []
  | c :: r =>
      if del before c (head r) then delete_in_context del (Some c) r
      else c :: delete_in_context del (Some c) r
  end.

(** [s] without every quote that stands before a colon. *)
Definition without_quotes_before_colon (s : str) : str :=
  delete_in_context (λ _ c after, is_quote c && bool_decide (after = Some ":"%char)) None s.

(** [s] without every quote that stands after a colon. *)
Definition without_quotes_after_colon (s : str) : str :=
  delete_in_context (λ before c _, is_quote c && bool_decide (before = Some ":"%char)) None s.

(** [s] without every backslash that stands before the letter n, and
    without that letter. *)
Definition without_backslash_n (s : str) : str :=
  delete_in_context
    (λ before c after,
       is_char "\" c && bool_decide (after = Some "n"%char)
       || is_char "n" c && bool_decide (before = Some "\"%char))
    None s.

(** The body of the response is a JSON object whose ['choices'] is a list
    whose first element is an object whose ['message'] is an object that has
    a ['content']. *)
Definition has_content_path (r : response) : Prop :=
  ∃ (body choice message : gmap str json) (rest : list json) (content : json),
    response_body r = Some (JObj body)
    ∧ body !! ("choices" : str) = Some (JArr (JObj choice :: rest))
    ∧ choice !! ("message" : str) = Some (JObj message)
    ∧ message !! ("content" : str) = Some content.

(** The stages of the pipeline, in the order in which the specification
    lists them, and the function of the script that carries out each. *)
Inductive stage :=
| ObtainDiff | BuildRequest | CallAPI | NormalizeResponse | PrefixByBranch
| PromptUser | Commit.

#[export] Instance stage_eq_dec : EqDecision stage.
Proof. solve_decision. Defined.


Definition stage_of (f : func) : option stage :=
  match f with
  | F_get_git_diff => Some ObtainDiff
  | F_prepare_request_data => Some BuildRequest
  | F_send_request_to_openai => Some CallAPI
  | F_process_response => Some NormalizeResponse
  | F_add_prefix_to_suggestions => Some PrefixByBranch
  | F_prompt_for_commit_message => Some PromptUser
  | F_make_commit => Some Commit
  | _ => None
  end.

(** The stages that a trace enters, in the order of the trace. *)
Definition stages (t : list event) : list stage :=
  omap (λ e, match e with Enter f => stage_of f | _ => None end) t.


(** [e1] occurs in [t] before [e2] does. *)
Definition precedes (e1 e2 : event) (t : list event) : Prop :=
  ∃ t1 t2 t3, t = t1 ++ e1 :: t2 ++ e2 :: t3.

Definition no_commit (t : list event) : Prop :=
  ∀ commit_message r, GitCommit commit_message r ∉ t.

(** The reply that [send_request_to_openai] hands on: one that arrived,
    whose status is no error status and whose body is JSON. *)
Definition reply_ok (a : outcome response) : bool :=
  match a with
  | Ret r => negb (bool_decide (400 ≤ status_code r < 600))
             && bool_decide (is_Some (response_body r))
  | Raise _ => false
  end.


(** The three wrapped calls, when they fail. *)
Definition failed_call (e : event) : bool :=
  match e with
  | GitDiff _ (Raise _) => true
  | Post _ _ _ a => negb (reply_ok a)
  | GitCommit _ (Raise _) => true
  | _ => false
  end.

Definition is_Post (e : event) : bool :=
  match e with Post _ _ _ _ => true | _ => false end.

(** The failed calls of a trace, each with the events that follow it. *)
Fixpoint failures (t : list event) : list (event * list event) :=
  match t with
  | e :: t' => if failed_call e then (e, t') :: failures t' else failures t'
  | [] => []
  end.

Definition is_commit (e : event) : bool :=
  match e with GitCommit _ _ => true | _ => false end.

Definition is_read (e : event) : bool :=
  match e with ReadConfig _ => true | _ => false end.

(** C6 as it is written: once one of the three calls has failed, no stage
    of the pipeline is entered any more. *)
Definition aborts_after_failure (t : list event) : Prop :=
  ∀ t1 e t2, t = t1 ++ e :: t2 → failed_call e = true → stages t2 = [].

(** The events of [load_config]. *)
Definition config_event (e : event) : bool :=
  match e with
  | ReadConfig _ | Input _ _ | WriteConfig _ _ => true
  | _ => false
  end.

(** The exception that a call to the world raised. *)
Definition failure {A} (r : outcome A) : option exn :=
  match r with Raise x => Some x | Ret _ => None end.

Definition raised (e : event) : option exn :=
  match e with
  | Enter _ => None
  | ReadConfig r => failure r
  | Input _ r => failure r
  | WriteConfig _ r => failure r
  | GitDiff _ r => failure r
  | CountTokens _ _ r => failure r
  | Confirm r => failure r
  | Post _ _ _ r => failure r
  | GitBranch r => failure r
  | Choose _ r => failure r
  | GitCommit _ r => failure r
  end.

Definition is_raise (e : event) : bool :=
  match raised e with Some _ => true | None => false end.

Definition is_GitDiff (e : event) : bool :=
  match e with GitDiff _ _ => true | _ => false end.

Definition is_GitBranch (e : event) : bool :=
  match e with GitBranch _ => true | _ => false end.

Definition is_Choose (e : event) : bool :=
  match e with Choose _ _ => true | _ => false end.

(** The events of a trace that satisfy [p], each with the events that
    follow it. *)
Fixpoint occurrences (p : event → bool) (t : list event) : list (event * list event) :=
  match t with
  | e :: t' => if p e then (e, t') :: occurrences p t' else occurrences p t'
  | [] => []
  end.

(** How often a trace calls the world in the way [p]. *)
Definition calls (p : event → bool) (t : list event) : nat :=
  length (List.filter p t).

(** How a run that returns [r] goes on after the call of [et.1] raised [x]
    with [et.2] still to come: the run is over, without an exception when
    the call was interrupted or was git failing to give the diff or to
    commit; or the call is the request; or it is git failing to tell the
    branch. *)
Definition ends_with (et : event * list event) (x : exn) (r : outcome ()) : Prop :=
  (et.2 = []
   ∧ r = if is_KeyboardInterrupt x
            || (is_GitDiff et.1 || is_commit et.1) && is_CalledProcessError x
         then Ret () else Raise x)
  ∨ is_Post et.1 = true
  ∨ (is_GitBranch et.1 = true ∧ x = CalledProcessError).

(** The text [sep] occurs in [s]. *)
Definition occurs (sep s : str) : Prop := ∃ a b, s = a ++ sep ++ b.

(** The keys of the configuration that the script reads. *)
Definition config_keys : list str :=
  [MODEL_NAME; OPENAI_API_KEY; TASK_PREFIX; OPENAI_API_URL; MAX_TOKEN_COUNT;
   TEMPERATURE; GIT_COMMAND; MESSAGE_TEMPLATE].

(** ** Sample runs *)

Module Sample.

Definition ok (s : str) : outcome str := Ret s.

Definition config : json :=
  JObj (<[MODEL_NAME := JStr "gpt-3.5-turbo"]>
       (<[OPENAI_API_KEY := JStr "sk-secret"]>
       (<[TASK_PREFIX := JStr "IOS"]>
       (<[OPENAI_API_URL := JStr "https://api.openai.com/v1/chat/completions"]>
       (<[MAX_TOKEN_COUNT := JInt 4000]>
       (<[TEMPERATURE := JFloat (Finite (7 # 10))]>
       (<[GIT_COMMAND := JArr [JStr "git"; JStr "diff"; JStr "--cached"]]>
       (<[MESSAGE_TEMPLATE := JStr "Suggest commit messages for {diff}"]> ∅)))))))).

(** A configuration file with the given key and task prefix. *)
Definition fresh_config (key prefix : str) : json :=
  JObj (<[OPENAI_API_KEY := JStr key]>
       (<[TASK_PREFIX := JStr prefix]>
       (<[GIT_COMMAND := JArr [JStr "git"; JStr "diff"; JStr "--cached"]]> ∅))).

Definition content : str :=
  "Here are three suggestions:" ++ [LF] ++ "1. 'Fix login crash'" ++ [LF] ++
  "2. Add tests" ++ [LF] ++ "''".

Definition reply : response :=
  Response 200 (Some (JObj (<["choices" : str :=
    JArr [JObj (<["message" : str := JObj (<["content" : str := JStr content]> ∅)]> ∅)]]> ∅))).

(** A world that answers the same whenever it is asked. *)
Definition world (config : outcome json) (typed : outcome str) (diff : outcome str)
    (tokens : nat) (proceed : option bool) (reply : outcome response)
    (branch : outcome str) (choice : option str) (committed : outcome str) : World :=
  {| read_config _ := config;
     input _ _ := typed;
     write_config _ _ := Ret ();
     git_diff _ _ := diff;
     count _ _ _ := Ret tokens;
     confirm _ := Ret proceed;
     post _ _ _ _ := reply;
     git_branch _ := branch;
     choose _ _ := Ret choice;
     git_commit _ _ := committed;
     json_dumps _ := "{...}";
     join_space _ := ok "git diff --cached";
     format template _ diff := Ret diff |}.

(** A run in which everything succeeds, on a task branch. *)
Definition happy : World :=
  world (Ret config) (ok "typed") (ok "diff --git a/x b/x") 120 None (Ret reply)
        (ok ("feature/IOS-42--login" ++ [LF])) (Some ("IOS-42: Add tests" : str))
        (ok "[main 1a2b3c] IOS-42: Add tests").

(** The same run with the network down. *)
Definition offline : World :=
  world (Ret config) (ok "typed") (ok "diff --git a/x b/x") 120 None (Raise OSError)
        (ok ("feature/IOS-42--login" ++ [LF])) (Some ("IOS-42: Add tests" : str))
        (ok "[main 1a2b3c] IOS-42: Add tests").

(** The same run on the main branch. *)
Definition on_main : World :=
  world (Ret config) (ok "typed") (ok "diff --git a/x b/x") 120 None (Ret reply)
        (ok ("main" ++ [LF])) (Some ("Add tests" : str))
        (ok "[main 1a2b3c] Add tests").

(** A run with a request above the limit, which the user lets through. *)
Definition large : World :=
  world (Ret config) (ok "typed") (ok "diff --git a/x b/x") 5000 (Some true) (Ret reply)
        (ok ("main" ++ [LF])) (Some ("Add tests" : str))
        (ok "[main 1a2b3c] Add tests").

(** A run whose configuration holds the placeholder of the key only. *)
Definition key_missing : World :=
  world (Ret (fresh_config YOUR_TOKEN_KEY "IOS")) (ok "sk-typed") (Raise CalledProcessError)
        0 None (Raise OSError) (Raise CalledProcessError) None (Raise CalledProcessError).

(** A world in which git prints the given branch name. *)
Definition on_branch (branch_name : str) : World :=
  world (Ret config) (ok "typed") (ok "") 0 None (Raise OSError)
        (ok (branch_name ++ [LF])) None (ok "").

(** A run in which the user leaves the list prompt without an answer. *)
Definition cancelled : World :=
  world (Ret config) (ok "typed") (ok "diff --git a/x b/x") 120 None (Ret reply)
        (ok ("main" ++ [LF])) None (ok "").

(** A configuration file that holds the placeholder of the key and no task
    prefix. *)
Definition no_prefix : World :=
  world (Ret (JObj (<[OPENAI_API_KEY := JStr YOUR_TOKEN_KEY]> ∅))) (ok "sk-typed")
        (ok "") 0 None (Raise OSError) (ok "") None (ok "").

End Sample.

(** * Properties *)

(** ** Lists and strings *)

Lemma comprehension_map_filter {A B} (f : A → B) (p : A → bool) (l : list A) :
  comprehension f p l = f <$> (filter (λ x, p x = true) l).
Proof.
  induction l as [|x l IH]; [done|]. simpl.
  rewrite filter_cons. destruct (p x) eqn:Hp.
  - rewrite decide_True by done. simpl. by f_equal.
  - rewrite decide_False by (by intros ?). done.
Qed.

Lemma startswith_spec (s p : str) :
  startswith s p = true ↔ ∃ rest, s = p ++ rest.
Proof.
  revert s. induction p as [|a p IH]; intros s; simpl.
  - split; [by exists s|done].
  - destruct s as [|c s].
    + split; [done|]. by intros [rest ?].
    + rewrite andb_true_iff, bool_decide_eq_true, IH. split.
      * intros [-> [rest ->]]. eauto.
      * intros [rest [= -> ->]]. eauto.
Qed.

Lemma split_go_skip (sep u rest : str) :
  split_go sep (length u) (u ++ rest) = split_go sep 0 rest.
Proof. induction u as [|c u IH]; simpl; auto. Qed.

Lemma split_nil (sep : str) : sep ≠ [] → split [] sep = [[]].
Proof. done. Qed.

(** Where the separator starts, a piece ends. *)
Lemma split_sep (sep rest : str) :
  sep ≠ [] → split (sep ++ rest) sep = [] :: split rest sep.
Proof.
  intros Hsep. destruct sep as [|a sep]; [done|].
  unfold split. simpl.
  rewrite bool_decide_true by done. simpl.
  assert (startswith (sep ++ rest) sep = true) as -> by (apply startswith_spec; eauto).
  rewrite Nat.sub_0_r, split_go_skip. by destruct (split_go _ 0 rest).
Qed.

(** Elsewhere, the character read belongs to the current piece. *)
Lemma split_char (sep : str) (c : ascii) (s : str) :
  startswith (c :: s) sep = false →
  split (c :: s) sep = (c :: hd [] (split s sep)) :: tail (split s sep).
Proof.
  intros Hs. unfold split. cbn [split_go]. rewrite Hs.
  by destruct (split_go sep 0 s).
Qed.

Lemma split_not_nil (s sep : str) : split s sep ≠ [].
Proof. unfold split. by destruct (split_go sep 0 s). Qed.

Lemma join_cons (sep p : str) (ps : list str) :
  ps ≠ [] → join sep (p :: ps) = p ++ sep ++ join sep ps.
Proof. by destruct ps. Qed.

(** [sep.join(s.split(sep)) == s] *)
Lemma join_split (s sep : str) : sep ≠ [] → join sep (split s sep) = s.
Proof.
  intros Hsep. remember (length s) as n eqn:Hn.
  revert s Hn. induction n as [n IH] using lt_wf_ind. intros s ->.
  destruct s as [|c s]; [done|].
  destruct (startswith (c :: s) sep) eqn:Hs.
  - apply startswith_spec in Hs as [rest Hs]. rewrite Hs, split_sep by done.
    rewrite join_cons by apply split_not_nil. simpl. f_equal.
    apply (IH (length rest)); [|done].
    apply (f_equal length) in Hs. rewrite length_app in Hs. simpl in Hs.
    destruct sep; [done|]. simpl in *. lia.
  - rewrite split_char by done.
    specialize (IH (length s) ltac:(simpl; lia) s eq_refl).
    pose proof (split_not_nil s sep) as Hne.
    destruct (split s sep) as [|p ps]; [done|]. simpl in *.
    destruct ps; simpl in *; by rewrite <- IH.
Qed.

(** No piece of a split at a character holds that character. *)
Lemma split_pieces (s : str) (c : ascii) : Forall (λ p, c ∉ p) (split s [c]).
Proof.
  induction s as [|x s IH]; [by repeat constructor; apply not_elem_of_nil|].
  destruct (startswith (x :: s) [c]) eqn:Hs.
  - apply startswith_spec in Hs as [rest [= -> ->]].
    change (c :: rest) with ([c] ++ rest). rewrite split_sep by done.
    constructor; [apply not_elem_of_nil|done].
  - rewrite split_char by done.
    pose proof (split_not_nil s [c]) as Hne.
    destruct (split s [c]) as [|p ps]; [done|]. simpl.
    apply Forall_cons in IH as [Hp Hps]. constructor; [|done].
    simpl in Hs. rewrite andb_true_r in Hs. apply bool_decide_eq_false in Hs.
    rewrite elem_of_cons. intros [->|?]; [by apply Hs|by apply Hp].
Qed.

Lemma hd_split_before_first (s sep : str) :
  sep ≠ [] → before_first sep s (hd [] (split s sep)).
Proof.
  intros Hsep. induction s as [|c s IH].
  - right. split; [done|]. intros a b Hab.
    symmetry in Hab. apply app_eq_nil in Hab as [_ [? _]%app_eq_nil]. done.
  - destruct (startswith (c :: s) sep) eqn:Hs.
    + pose proof Hs as [rest Hrest]%startswith_spec.
      rewrite Hrest, split_sep by done. left. exists rest. split; [done|].
      intros. simpl. lia.
    + rewrite split_char by done. simpl.
      assert (∀ b, c :: s ≠ sep ++ b) as Hnot.
      { intros b Hb. assert (startswith (c :: s) sep = true) as Ht
          by (apply startswith_spec; eauto). congruence. }
      destruct IH as [(rest & Hrest & Hleft)|[Hall Hnone]].
      * left. exists rest. split; [by rewrite Hrest at 1|].
        intros [|x a] b Hab; [by destruct (Hnot b)|].
        injection Hab as -> Hab. simpl. apply Hleft in Hab. lia.
      * right. split; [by rewrite Hall|].
        intros [|x a] b Hab; [by destruct (Hnot b)|].
        injection Hab as -> Hab. by destruct (Hnone a b).
Qed.

Lemma last_split_last_segment (s : str) (c : ascii) :
  last_segment c s (List.last (split s [c]) []).
Proof.
  induction s as [|x s IH].
  - split; [apply not_elem_of_nil|by left].
  - pose proof (split_not_nil s [c]) as Hne.
    pose proof (join_split s [c] ltac:(done)) as Hjoin.
    destruct (startswith (x :: s) [c]) eqn:Hs.
    + apply startswith_spec in Hs as [rest [= -> ->]].
      change (c :: rest) with ([c] ++ rest). rewrite split_sep by done.
      destruct (split rest [c]) as [|p ps] eqn:Hsplit; [done|].
      change (List.last ([] :: p :: ps) []) with (List.last (p :: ps) []).
      destruct IH as [Hnotin [->|[pre ->]]]; (split; [done|right]).
      * by exists [].
      * by exists (c :: pre).
    + rewrite split_char by done.
      simpl in Hs. rewrite andb_true_r in Hs. apply bool_decide_eq_false in Hs.
      destruct (split s [c]) as [|p [|q ps]] eqn:Hsplit; [done|..].
      * simpl in *. subst p. destruct IH as [Hnotin _].
        split; [|by left]. rewrite elem_of_cons. intros [->|?]; tauto.
      * change (List.last ((x :: hd [] (p :: q :: ps)) :: tail (p :: q :: ps)) [])
          with (List.last (p :: q :: ps) []).
        destruct IH as [Hnotin [Heq|[pre ->]]]; (split; [done|]).
        -- exfalso. apply Hnotin. rewrite <- Heq, <- Hjoin.
           rewrite join_cons by done. set_solver.
        -- right. by exists (x :: pre).
Qed.

(** *** White space *)

Lemma lstrip_nil_iff (s : str) : lstrip s = [] ↔ blank s.
Proof.
  unfold blank. induction s as [|c s IH]; simpl.
  - split; [constructor|done].
  - destruct (is_space c) eqn:Hc.
    + rewrite IH. split; [by constructor|by inversion 1].
    + split; [done|]. inversion 1; congruence.
Qed.

(** What [lstrip] leaves does not start with white space. *)
Lemma lstrip_head (s : str) (c : ascii) (r : str) :
  lstrip s = c :: r → is_space c = false.
Proof.
  induction s as [|x s IH]; simpl; [done|].
  destruct (is_space x) eqn:Hx; [done|]. by intros [= <- _].
Qed.

Lemma lstrip_decompose (s : str) : ∃ ws, s = ws ++ lstrip s ∧ blank ws.
Proof.
  induction s as [|c s (ws & Hws & Hb)]; simpl.
  - exists []. split; [done|constructor].
  - destruct (is_space c) eqn:Hc.
    + exists (c :: ws). split; [by rewrite Hws at 1|by constructor].
    + exists []. split; [done|constructor].
Qed.

Lemma blank_app (s t : str) : blank (s ++ t) ↔ blank s ∧ blank t.
Proof. apply Forall_app. Qed.

Lemma blank_reverse (s : str) : blank (reverse s) ↔ blank s.
Proof. unfold blank. by rewrite Forall_reverse. Qed.

Lemma lstrip_blank_iff (s : str) : blank (lstrip s) ↔ blank s.
Proof.
  destruct (lstrip_decompose s) as (ws & Hws & Hb).
  rewrite Hws at 2. rewrite blank_app. tauto.
Qed.

(** [s.strip() == ''] exactly when [s] is blank. *)
Lemma strip_nil_iff (s : str) : strip s = [] ↔ blank s.
Proof.
  unfold strip, rstrip.
  rewrite <- (lstrip_blank_iff s), <- (blank_reverse (lstrip s)), <- lstrip_nil_iff.
  split; [|by intros ->].
  intros H. apply (f_equal reverse) in H. by rewrite reverse_involutive in H.
Qed.

Lemma strip_stripped (s : str) : strip (strip s) = strip s.
Proof.
  unfold strip, rstrip.
  destruct (lstrip_decompose (reverse (lstrip s))) as (ws & Hws & Hb).
  set (t := lstrip (reverse (lstrip s))) in *.
  assert (lstrip (reverse t) = reverse t) as Hl.
  { assert (lstrip s = reverse t ++ reverse ws) as Hs.
    { apply (f_equal reverse) in Hws. by rewrite reverse_involutive, reverse_app in Hws. }
    destruct (reverse t) as [|c r] eqn:Hr; [done|]. simpl.
    by rewrite (lstrip_head s c (r ++ reverse ws)). }
  rewrite Hl, reverse_involutive.
  assert (lstrip t = t) as Ht.
  { subst t. destruct (lstrip (reverse (lstrip s))) as [|c r] eqn:Hr; [done|].
    simpl. by rewrite (lstrip_head _ _ _ Hr). }
  by rewrite Ht.
Qed.

(** *** The built-ins at work *)

Example split_dashes : split "a--b---c" "--" = ["a" : str; "b" : str; "-c" : str].
Proof. reflexivity. Qed.

Example split_empty : split "" "/" = ["" : str].
Proof. reflexivity. Qed.

Example strip_sample : strip ("  a b" ++ [LF]) = "a b".
Proof. reflexivity. Qed.

(** ** The branch prefixer *)

(** The task identifier that the script computes. *)
Lemma task_id_spec (branch_name : str) :
  is_task_id branch_name (List.last (split (hd [] (split branch_name "--")) "/") []).
Proof.
  exists (hd [] (split branch_name "--")). split.
  - by apply hd_split_before_first.
  - apply (last_split_last_segment _ "/").
Qed.

(** Unfolding the monad. *)
Ltac run :=
  cbv [mbind M_bind mret M_ret bind ret raise lift try ask call]; cbn [app].

(** One run of [add_prefix_to_suggestions]: the branch is looked up once,
    and the answer decides the result. *)
Lemma add_prefix_to_suggestions_run (W : World) (suggestions : list str) (h : list event) :
  let r := git_branch W (h ++ [Enter F_get_current_branch]) in
  add_prefix_to_suggestions W suggestions h =
    (match r with
     | Ret output =>
         Ret (if startswith (strip output) "feature/IOS-"
              then comprehension
                     (λ s, (List.last (split (hd [] (split (strip output) "--")) "/") [] ++ ": ")
                             ++ strip s)
                     (λ s, negb (bool_decide (strip s = ""))) suggestions
              else suggestions)
     | Raise CalledProcessError => Ret suggestions
     | Raise e => Raise e
     end, [Enter F_get_current_branch; GitBranch r]).
Proof.
  unfold add_prefix_to_suggestions, get_current_branch. run.
  destruct (git_branch W _) as [output|[]]; try done.
  by destruct (startswith _ _).
Qed.

(** The prefix is put before the stripped text of each suggestion that is
    not blank. *)
Lemma prefix_comprehension (prefix : str) (suggestions : list str) :
  comprehension (λ s, prefix ++ strip s) (λ s, negb (bool_decide (strip s = ""))) suggestions
  = (λ s, prefix ++ strip s) <$> (filter (λ s, ¬ blank s) suggestions).
Proof.
  rewrite comprehension_map_filter. f_equal. apply list_filter_iff. intros s.
  rewrite negb_true_iff, bool_decide_eq_false. by rewrite <- strip_nil_iff.
Qed.

(** C3 as it is written fails: on a task branch, a suggestion that is empty
    is dropped, it is not given the prefix. *)
Lemma C3_counterexample :
  (add_prefix_to_suggestions Sample.happy ["Fix login crash" : str; "" : str] []).1
  ≠ Ret ((λ s, "IOS-42: " ++ s) <$> ["Fix login crash" : str; "" : str]).
Proof. vm_compute. discriminate. Qed.

(** C3, amended.  When the branch name that git prints starts with
    [feature/IOS-], the prefixer drops the suggestions that are blank and
    replaces every other suggestion by the task identifier, a colon and a
    space, and the suggestion stripped of surrounding white space; the task
    identifier is the last segment between slashes of what precedes the
    first double dash of the branch name.  For any other branch name the
    suggestions are returned as they are. *)
Theorem C3_prefix_by_branch (W : World) (suggestions : list str) (h : list event)
    (output : str) :
  GitBranch (Ret output) ∈ (add_prefix_to_suggestions W suggestions h).2 →
  let branch_name := strip output in
  if startswith branch_name "feature/IOS-" then
    ∃ task_id, is_task_id branch_name task_id ∧
      (add_prefix_to_suggestions W suggestions h).1
      = Ret ((λ s, (task_id ++ ": ") ++ strip s) <$> (filter (λ s, ¬ blank s) suggestions))
  else (add_prefix_to_suggestions W suggestions h).1 = Ret suggestions.
Proof.
  rewrite add_prefix_to_suggestions_run. cbn [fst snd].
  rewrite !elem_of_cons, elem_of_nil. intros [?|[[= <-]|[]]]; [done|].
  cbn zeta. destruct (startswith (strip output) _) eqn:Hs; [|done].
  eexists. split; [apply task_id_spec|]. by rewrite prefix_comprehension.
Qed.

(** C3 on the branch [feature/IOS-42--login]. *)
Lemma C3_prefix_by_branch_witness :
  GitBranch (Ret ("feature/IOS-42--login" ++ [LF]))
    ∈ (add_prefix_to_suggestions Sample.happy ["Fix login crash" : str; "" : str] []).2
  ∧ ∃ task_id, is_task_id "feature/IOS-42--login" task_id ∧
      (add_prefix_to_suggestions Sample.happy ["Fix login crash" : str; "" : str] []).1
      = Ret ((λ s, (task_id ++ ": ") ++ strip s)
               <$> (filter (λ s, ¬ blank s) ["Fix login crash" : str; "" : str])).
Proof.
  assert (GitBranch (Ret ("feature/IOS-42--login" ++ [LF]))
    ∈ (add_prefix_to_suggestions Sample.happy ["Fix login crash" : str; "" : str] []).2) as H.
  { vm_compute. apply list_elem_of_further, list_elem_of_here. }
  split; [exact H|].
  exact (C3_prefix_by_branch Sample.happy ["Fix login crash" : str; "" : str] [] _ H).
Defined.

(** C10.  On a branch whose name starts with [feature/IOS-], every entry of
    the prefixer's output is the task-identifier prefix followed by the text,
    not empty, of a suggestion that is not blank, and there is one entry for
    each such suggestion: blank suggestions are dropped.  On any other
    branch, and when the branch lookup fails with [CalledProcessError], the
    list comes back as it was given. *)
Theorem C10_blank_suggestions (W : World) (suggestions : list str) (h : list event)
    (r : outcome str) :
  GitBranch r ∈ (add_prefix_to_suggestions W suggestions h).2 →
  match r with
  | Ret output =>
      if startswith (strip output) "feature/IOS-" then
        ∃ task_id out,
          is_task_id (strip output) task_id
          ∧ (add_prefix_to_suggestions W suggestions h).1 = Ret out
          ∧ (∀ x, x ∈ out → ∃ s, s ∈ suggestions ∧ ¬ blank s ∧ strip s ≠ []
                              ∧ x = (task_id ++ ": ") ++ strip s)
          ∧ (∀ s, s ∈ suggestions → ¬ blank s → (task_id ++ ": ") ++ strip s ∈ out)
          ∧ length out = length (filter (λ s, ¬ blank s) suggestions)
      else (add_prefix_to_suggestions W suggestions h).1 = Ret suggestions
  | Raise CalledProcessError => (add_prefix_to_suggestions W suggestions h).1 = Ret suggestions
  | Raise _ => True
  end.
Proof.
  rewrite add_prefix_to_suggestions_run. cbn [fst snd].
  rewrite !elem_of_cons, elem_of_nil. intros [?|[[= <-]|[]]]; [done|].
  destruct r as [output|[]]; try done.
  destruct (startswith (strip output) _) eqn:Hs; [|done].
  eexists _, _. split; [apply task_id_spec|]. split; [done|].
  rewrite prefix_comprehension. split; [|split].
  - intros x (s & -> & [Hs1 Hs2]%list_elem_of_filter)%list_elem_of_fmap.
    exists s. by rewrite strip_nil_iff.
  - intros s Hin Hnb. apply list_elem_of_fmap. exists s.
    by rewrite list_elem_of_filter.
  - by rewrite length_fmap.
Qed.

(** C10 on the branch [feature/IOS-42--login]. *)
Lemma C10_blank_suggestions_witness :
  GitBranch (Ret ("feature/IOS-42--login" ++ [LF]))
    ∈ (add_prefix_to_suggestions Sample.happy ["Add tests" : str; "  " : str] []).2
  ∧ ∃ task_id out,
      is_task_id "feature/IOS-42--login" task_id
      ∧ (add_prefix_to_suggestions Sample.happy ["Add tests" : str; "  " : str] []).1 = Ret out
      ∧ (∀ x, x ∈ out → ∃ s, s ∈ ["Add tests" : str; "  " : str] ∧ ¬ blank s ∧ strip s ≠ []
                          ∧ x = (task_id ++ ": ") ++ strip s)
      ∧ (∀ s, s ∈ ["Add tests" : str; "  " : str] → ¬ blank s → (task_id ++ ": ") ++ strip s ∈ out)
      ∧ length out = length (filter (λ s, ¬ blank s) ["Add tests" : str; "  " : str]).
Proof.
  assert (GitBranch (Ret ("feature/IOS-42--login" ++ [LF]))
    ∈ (add_prefix_to_suggestions Sample.happy ["Add tests" : str; "  " : str] []).2) as H.
  { vm_compute. apply list_elem_of_further, list_elem_of_here. }
  split; [exact H|].
  exact (C10_blank_suggestions Sample.happy ["Add tests" : str; "  " : str] [] _ H).
Defined.

(** ** The response normalizer *)

(** C1 as it is written fails: the first line of the response is not among
    the suggestions, whatever is done to each line. *)
Lemma C1_counterexample :
  ¬ ∃ f : str → str,
      normalize_messages "Fix login crash" = f <$> split "Fix login crash" [LF].
Proof. intros [f Hf]. vm_compute in Hf. discriminate. Qed.

Lemma normalize_message_filter_stripped (message : str) :
  strip (normalize_message_filter message) = normalize_message_filter message.
Proof. apply strip_stripped. Qed.

Lemma normalize_messages_list (content : str) :
  normalize_messages content
  = normalize_message_filter <$> (filter (λ line, 1 < length line) (drop 1 (split content [LF]))).
Proof.
  unfold normalize_messages. cbv zeta. rewrite comprehension_map_filter.
  f_equal. replace (tail (split content [LF])) with (drop 1 (split content [LF]))
    by (by destruct (split content [LF])).
  apply list_filter_iff. intros line. by rewrite Nat.ltb_lt.
Qed.

(** The sample response: its first line is dropped, and its last line, two
    quotes, becomes an empty suggestion. *)
Example normalize_sample :
  normalize_messages Sample.content
  = ["Fix login crash" : str; "Add tests" : str; "" : str].
Proof. reflexivity. Qed.

(** One marker and one quote at each end are removed, no more; a number
    that is not followed by white space is no marker. *)
Example normalize_twice_marked :
  normalize_message_filter <$> ["- - x" : str; "''x''" : str; "12.3 x" : str; "a ':b" : str]
  = ["- x" : str; "'x'" : str; "12.3 x" : str; "a :b" : str].
Proof. reflexivity. Qed.

(** A quote that is followed by the line feed that ends the string is a
    trailing quote for [re.sub]. *)
Example trailing_quote_before_line_feed :
  Re.sub_trailing_quote ("x'" ++ [LF]) = "x" ++ [LF].
Proof. reflexivity. Qed.

(** C7.  The suggestions that normalization returns are the normalized
    lines of a sublist of the lines of the response, and the suggestions that
    the prefixer returns are those of a sublist of its input, either as they
    were or each stripped and given one and the same prefix: in both, the
    entries that are kept stay in their order. *)
Theorem C7_order_preserved :
  (∀ content : str, ∃ kept,
      kept `sublist_of` split content [LF]
      ∧ normalize_messages content = normalize_message_filter <$> kept)
  ∧ (∀ (W : World) (suggestions : list str) (h : list event),
      match (add_prefix_to_suggestions W suggestions h).1 with
      | Ret out => ∃ kept,
          kept `sublist_of` suggestions
          ∧ (out = kept ∨ ∃ prefix, out = (λ s, prefix ++ strip s) <$> kept)
      | Raise _ => True
      end).
Proof.
  split.
  - intros content. eexists. split; [|apply normalize_messages_list].
    etrans; [apply sublist_filter|apply sublist_drop].
  - intros W suggestions h. rewrite add_prefix_to_suggestions_run. cbn [fst].
    destruct (git_branch W _) as [output|[]]; try done;
      try (by exists suggestions; split; [|left]).
    destruct (startswith (strip output) _).
    + exists (filter (λ s, ¬ blank s) suggestions).
      split; [apply sublist_filter|]. right. eexists.
      apply prefix_comprehension.
    + exists suggestions. by split; [|left].
Qed.

(** C8.  The normalizers are functions of the text they are given: equal
    inputs give equal outputs, for a single message and for a response. *)
Theorem C8_deterministic (message1 message2 : str) :
  message1 = message2 →
  normalize_message_filter message1 = normalize_message_filter message2
  ∧ normalize_messages message1 = normalize_messages message2.
Proof. by intros ->. Qed.

(** C8 on one line of a response. *)
Lemma C8_deterministic_witness :
  ("1. 'Fix login crash'" : str) = "1. 'Fix login crash'"
  ∧ normalize_message_filter "1. 'Fix login crash'" = normalize_message_filter "1. 'Fix login crash'"
  ∧ normalize_messages "1. 'Fix login crash'" = normalize_messages "1. 'Fix login crash'".
Proof.
  split; [reflexivity|].
  exact (C8_deterministic "1. 'Fix login crash'" "1. 'Fix login crash'" eq_refl).
Defined.

(** ** Response processing *)

Lemma getitem_Ret (v : json) (k : str) (x : json) :
  getitem v k = Ret x ↔ ∃ d, v = JObj d ∧ d !! k = Some x.
Proof.
  split.
  - destruct v as [| | | | | |d]; simpl; try done.
    destruct (d !! k) eqn:Hk; [|done]. intros [= ->]. eauto.
  - intros (d & -> & Hk). simpl. by rewrite Hk.
Qed.

(** Where the content can be read, the path is there. *)
Lemma content_of_Ret (r : response) (content : json) :
  content_of r = Ret content → has_content_path r.
Proof.
  unfold content_of, response_json, has_content_path, obind.
  destruct (response_body r) as [body|]; [|done].
  destruct (getitem body _) as [choices|] eqn:H1; [|done].
  apply getitem_Ret in H1 as (d1 & -> & H1).
  destruct choices as [| | | |s|l|]; simpl; try done.
  { destruct (s !! 0); done. }
  destruct l as [|choice rest]; [done|]. simpl.
  destruct (getitem choice _) as [message|] eqn:H2; [|done].
  apply getitem_Ret in H2 as (d2 & -> & H2).
  intros (d3 & -> & H3)%getitem_Ret. by exists d1, d2, d3, rest, content.
Qed.

Lemma getitem_Raise (v : json) (k : str) (e : exn) :
  getitem v k = Raise e → is_Exception e = true.
Proof. unfold getitem. repeat case_match; by intros [= <-]. Qed.

Lemma getindex_Raise (v : json) (i : nat) (e : exn) :
  getindex v i = Raise e → is_Exception e = true.
Proof. unfold getindex. repeat case_match; by intros [= <-]. Qed.

(** What the lookups raise is caught by [except Exception]. *)
Lemma content_of_Raise (r : response) (e : exn) :
  content_of r = Raise e → is_Exception e = true.
Proof.
  unfold content_of, response_json, obind.
  destruct (response_body r) as [body|]; [|by intros [= <-]].
  destruct (getitem body _) as [choices|e1] eqn:H1;
    [|intros [= <-]; by eapply getitem_Raise].
  destruct (getindex choices 0) as [choice|e2] eqn:H2;
    [|intros [= <-]; by eapply getindex_Raise].
  destruct (getitem choice _) as [message|e3] eqn:H3;
    [|intros [= <-]; by eapply getitem_Raise].
  apply getitem_Raise.
Qed.

(** C9.  [process_response] never raises; it returns the empty list for a
    missing response, and for a response it returns the empty list unless
    the path ['choices'][0]['message']['content'] exists in the body. *)
Theorem C9_process_response_total :
  process_response None = Ret []
  ∧ ∀ r : response,
      (∃ suggestions, process_response (Some r) = Ret suggestions)
      ∧ (has_content_path r ∨ process_response (Some r) = Ret []).
Proof.
  split; [done|]. intros r. unfold process_response.
  destruct (content_of r) as [content|e] eqn:Hc; simpl.
  - split.
    + destruct content; simpl; eauto.
    + left. by eapply content_of_Ret.
  - rewrite (content_of_Raise r e Hc). eauto.
Qed.

(** ** The runs of the wrappers *)

Lemma getitem_not_CalledProcessError (v : json) (k : str) (e : exn) :
  getitem v k = Raise e → is_CalledProcessError e = false.
Proof. unfold getitem. repeat case_match; by intros [= <-]. Qed.

Lemma process_response_Ret (response : option response) :
  ∃ suggestions, process_response response = Ret suggestions.
Proof.
  destruct response as [r|]; [|by eexists].
  unfold process_response.
  destruct (content_of r) as [content|e] eqn:Hc; simpl.
  - destruct content; simpl; eauto.
  - rewrite (content_of_Raise r e Hc). eauto.
Qed.

(** [get_git_diff]: one call of git when the command is configured. *)
Lemma get_git_diff_run (W : World) (config : json) (h : list event) :
  get_git_diff W config h =
    match getitem config GIT_COMMAND with
    | Ret cmd =>
        let a := git_diff W h cmd in
        (match a with
         | Ret output => Ret (Some output)
         | Raise e => if is_CalledProcessError e then Ret None else Raise e
         end, [GitDiff cmd a])
    | Raise e => (Raise e, [])
    end.
Proof.
  unfold get_git_diff. run.
  destruct (getitem config GIT_COMMAND) as [cmd|e] eqn:Hc.
  - rewrite app_nil_r. destruct (git_diff W h cmd) as [output|e]; [done|].
    by destruct (is_CalledProcessError e).
  - by rewrite (getitem_not_CalledProcessError _ _ _ Hc).
Qed.

(** [make_commit]: one call of git. *)
Lemma make_commit_run (W : World) (commit_message : str) (h : list event) :
  make_commit W commit_message h =
    let a := git_commit W h commit_message in
    (match a with
     | Ret output => Ret (Some output)
     | Raise e => if is_CalledProcessError e then Ret None else Raise e
     end, [GitCommit commit_message a]).
Proof.
  unfold make_commit. run.
  destruct (git_commit W h commit_message) as [output|e]; [done|].
  by destruct (is_CalledProcessError e).
Qed.

(** [send_request_to_openai]: one request when key and URL are configured;
    whatever goes wrong after the key is read ends in [None]. *)
Lemma send_request_to_openai_run (W : World) (data config : json) (h : list event) :
  send_request_to_openai W data config h =
    match getitem config OPENAI_API_KEY with
    | Ret key =>
        match getitem config OPENAI_API_URL with
        | Ret url =>
            let a := post W h url key (json_dumps W data) in
            (Ret (match a with Ret r => if reply_ok a then Some r else None | Raise _ => None end),
             [Post url key (json_dumps W data) a])
        | Raise _ => (Ret None, [])
        end
    | Raise e => (Raise e, [])
    end.
Proof.
  unfold send_request_to_openai, response_json, reply_ok. run.
  destruct (getitem config OPENAI_API_KEY) as [key|e]; [|done].
  rewrite ?app_nil_r.
  destruct (getitem config OPENAI_API_URL) as [url|e]; [|by destruct (is_KeyboardInterrupt e)].
  destruct (post W h url key _) as [r|e]; [|by destruct (is_KeyboardInterrupt e)].
  destruct (bool_decide (400 ≤ status_code r < 600)); [done|].
  destruct (response_body r); done.
Qed.

(** [get_prefix_name]: as the prefixer, for one message. *)
Lemma get_prefix_name_run (W : World) (h : list event) :
  let r := git_branch W (h ++ [Enter F_get_current_branch]) in
  get_prefix_name W h =
    (match r with
     | Ret output =>
         Ret (if startswith (strip output) "feature/IOS-"
              then List.last (split (hd [] (split (strip output) "--")) "/") [] ++ ": "
              else [])
     | Raise e => if is_CalledProcessError e then Ret [] else Raise e
     end, [Enter F_get_current_branch; GitBranch r]).
Proof.
  unfold get_prefix_name, get_current_branch. run.
  destruct (git_branch W _) as [output|e].
  - by destruct (startswith _ _).
  - by destruct (is_CalledProcessError e).
Qed.

(** ** Symbolic runs *)

Lemma process_response_None : process_response None = Ret [].
Proof. done. Qed.

Lemma comprehension_nil {A B} (f : A → B) (p : A → bool) : comprehension f p [] = [].
Proof. done. Qed.

(** One step of a run: the case analysis of the first answer, lookup or
    test that the rest of the run depends on. *)
Ltac step :=
  match goal with
  | |- context [match ?x with _ => _ end] =>
      lazymatch x with
      | context [match _ with _ => _ end] => fail
      | _ => destruct x eqn:?
      end
  end.

(** A symbolic run: the wrappers are replaced by their runs, and every
    answer of the world, lookup in the configuration and test is split into
    its cases, first things first.  Each goal that is left is one way the
    run can go, with its trace written out. *)
Ltac explore :=
  repeat first
    [ rewrite get_git_diff_run
    | rewrite send_request_to_openai_run
    | rewrite add_prefix_to_suggestions_run
    | rewrite get_prefix_name_run
    | rewrite make_commit_run
    | rewrite process_response_None
    | rewrite comprehension_nil
    | progress cbv beta iota zeta
    | progress cbn [negb]
    | step ].

(** [load_config] reads the file, asks the user and writes the file, and
    does nothing else. *)
Lemma load_config_events (W : World) (h : list event) :
  forallb config_event (load_config W h).2 = true.
Proof.
  cbv [load_config mbind M_bind mret M_ret bind ret raise lift try ask call].
  explore; reflexivity.
Qed.

Lemma config_only (W : World) (h : list event) r l (e : event) :
  load_config W h = (r, l) → e ∈ l → config_event e = true.
Proof.
  intros Hrun Hin. pose proof (load_config_events W h) as Hall.
  rewrite Hrun in Hall. simpl in Hall.
  rewrite forallb_forall in Hall. apply Hall. by apply list_elem_of_In.
Qed.




Lemma precedes_here (e1 e2 : event) (t : list event) :
  e2 ∈ t → precedes e1 e2 (e1 :: t).
Proof.
  intros (t2 & t3 & ->)%list_elem_of_split. by exists [], t2, t3.
Qed.

Lemma precedes_cons (e1 e2 x : event) (t : list event) :
  precedes e1 e2 t → precedes e1 e2 (x :: t).
Proof. intros (t1 & t2 & t3 & ->). by exists (x :: t1), t2, t3. Qed.

Lemma precedes_app (e1 e2 : event) (l t : list event) :
  precedes e1 e2 t → precedes e1 e2 (l ++ t).
Proof.
  intros (t1 & t2 & t3 & ->). exists (l ++ t1), t2, t3. by rewrite <- app_assoc.
Qed.

(** What a membership in an explicit trace says. *)
Ltac explicit_in H :=
  repeat (apply elem_of_cons in H as [H|H]; [try discriminate H|]);
  try (apply elem_of_nil in H; destruct H).

(** An event that is there, in an explicit trace. *)
Ltac solve_in :=
  repeat first [apply list_elem_of_here | apply list_elem_of_further].

Ltac show_precedes :=
  repeat first
    [ apply precedes_here; solve_in
    | apply precedes_cons
    | apply precedes_app ].

(** Membership in the trace of a whole run, for an event that is not one
    of [load_config]'s. *)
Ltac in_main H :=
  apply elem_of_cons in H as [H|H]; [discriminate H|];
  apply elem_of_app in H as [H|H];
  [match goal with Hcfg : ∀ e, e ∈ _ → config_event e = true |- _ =>
     apply Hcfg in H; discriminate H end|];
  explicit_in H.

(** The drivers of the pipeline, unfolded for a symbolic run. *)
Ltac unfold_main :=
  cbv [main process_diff get_commit_suggestions check_token_count_and_get_confirmation
       count_tokens prompt_for_commit_message create_custom_commit_message
       mbind M_bind mret M_ret bind ret raise lift try ask call].

(** At the end of a symbolic run of [main]: the trace is the entry of
    [load_config], its events, and an explicit rest. *)
Ltac leaf :=
  cbn [app fst snd]; rewrite <- ?app_assoc; cbn [app];
  match goal with
  | H : load_config _ _ = _ |- _ =>
      let Hcfg := fresh "Hcfg" in
      pose proof (λ e, config_only _ _ _ _ e H) as Hcfg
  end.

Lemma no_commit_main (l rest : list event) :
  (∀ e, e ∈ l → config_event e = true) →
  forallb (λ e, negb (is_commit e)) rest = true →
  no_commit (Enter F_load_config :: l ++ rest).
Proof.
  intros Hcfg Hrest commit_message r Hc.
  apply elem_of_cons in Hc as [Hc|Hc]; [discriminate Hc|].
  apply elem_of_app in Hc as [Hc|Hc]; [apply Hcfg in Hc; discriminate Hc|].
  rewrite forallb_forall in Hrest. apply list_elem_of_In, Hrest in Hc. discriminate Hc.
Qed.

(** The answer that lets a large request through. *)
Ltac confirmed :=
  repeat match goal with
    | H : negb (default false ?x) = _ |- _ =>
        destruct x as [[]|]; simpl in H; try discriminate H; clear H
    end.

Lemma prefixed_message (task_id typed : str) (c1 c2 : ascii) :
  task_id ++ c1 :: c2 :: typed = (task_id ++ [c1; c2]) ++ typed.
Proof. by rewrite <- app_assoc. Qed.






(** A run in which everything succeeds enters every stage and commits. *)
Example happy_run :
  stages (main Sample.happy []).2
  = [ObtainDiff; BuildRequest; BuildRequest; CallAPI; NormalizeResponse;
     PrefixByBranch; PromptUser; Commit]
  ∧ GitCommit "IOS-42: Add tests" (Sample.ok "[main 1a2b3c] IOS-42: Add tests")
      ∈ (main Sample.happy []).2.
Proof. split; [by vm_compute|]. vm_compute. solve_in. Qed.

(** A request above the limit: the user is asked, agrees, and the run
    goes on to the commit. *)
Example large_run :
  Confirm (Ret (Some true)) ∈ (main Sample.large []).2
  ∧ GitCommit "Add tests" (Sample.ok "[main 1a2b3c] Add tests") ∈ (main Sample.large []).2.
Proof. split; vm_compute; solve_in. Qed.

(** On the main branch the suggestions are offered as they are, the empty
    one included. *)
Example on_main_run :
  Choose ["Fix login crash" : str; "Add tests" : str; "" : str;
          "Enter your own commit message" : str]
         (Ret (Some ("Add tests" : str)))
    ∈ (main Sample.on_main []).2.
Proof. vm_compute. solve_in. Qed.

(** ** Failing calls *)

Lemma failures_spec (t t1 t2 : list event) (e : event) :
  t = t1 ++ e :: t2 → failed_call e = true → (e, t2) ∈ failures t.
Proof.
  intros -> Hf. induction t1 as [|x t1 IH]; simpl.
  - rewrite Hf. by left.
  - destruct (failed_call x); [by right|done].
Qed.

Lemma failures_config (l rest : list event) :
  (∀ e, e ∈ l → config_event e = true) → failures (l ++ rest) = failures rest.
Proof.
  induction l as [|x l IH]; intros Hall; [done|]. simpl.
  rewrite IH by (intros; apply Hall; by right).
  specialize (Hall x ltac:(by left)). by destruct x.
Qed.

Lemma failures_main (l rest : list event) :
  (∀ e, e ∈ l → config_event e = true) →
  failures (Enter F_load_config :: l ++ rest) = failures rest.
Proof. intros Hall. simpl. by apply failures_config. Qed.

Lemma no_commit_explicit (t : list event) :
  forallb (λ e, negb (is_commit e)) t = true → no_commit t.
Proof.
  intros Hall commit_message r Hc. rewrite forallb_forall in Hall.
  apply list_elem_of_In, Hall in Hc. discriminate Hc.
Qed.

(** C6 as it is written fails: with the network down, response processing
    and the branch prefixer are still entered after the failed request. *)
Lemma C6_counterexample : ¬ aborts_after_failure (main Sample.offline []).2.
Proof.
  intros Habort.
  assert (∃ t1 e t2, (main Sample.offline []).2 = t1 ++ e :: t2
            ∧ failed_call e = true
            ∧ stages t2 = [NormalizeResponse; PrefixByBranch]) as (t1 & e & t2 & Ht & Hf & Hs).
  { exists (take 12 (main Sample.offline []).2),
      (Post (JStr "https://api.openai.com/v1/chat/completions") (JStr "sk-secret")
            "{...}" (Raise OSError)),
      (drop 13 (main Sample.offline []).2).
    by vm_compute. }
  specialize (Habort t1 e t2 Ht Hf). congruence.
Qed.

(** What follows a failed call in a whole run. *)
Lemma main_failures (W : World) :
  Forall (λ et : event * list event,
            stages et.2 = (if is_Post et.1 then [NormalizeResponse; PrefixByBranch] else [])
            ∧ forallb (λ e, negb (is_commit e)) et.2 = true)
         (failures (main W []).2).
Proof.
  pattern ((main W []).2).
  match goal with |- ?P ?t => set (Q := P) end.
  unfold_main. explore; leaf; subst Q; cbv beta.
  all: rewrite (failures_main _ _ Hcfg); cbn [failures failed_call].
  all: repeat match goal with H : reply_ok _ = _ |- _ => rewrite H end.
  all: cbn [failures failed_call reply_ok negb].
  all: repeat constructor.
Qed.

(** C6, amended.  Each wrapper turns the failure of its call into an error
    result: [get_git_diff] and [make_commit] return [None] for a
    [CalledProcessError] and let any other exception pass, and
    [send_request_to_openai] returns [None] whenever the request raises,
    comes back with an error status or has no JSON body.  In a whole run,
    nothing of the pipeline is entered after a failed diff fetch or a failed
    commit; after a failed API request, response processing and the branch
    prefixer are still entered (on the missing response), and then neither
    the prompt nor the commit. *)
Theorem C6_error_propagation (W : World) :
  (∀ config h cmd e,
     GitDiff cmd (Raise e) ∈ (get_git_diff W config h).2 →
     (get_git_diff W config h).1 = if is_CalledProcessError e then Ret None else Raise e)
  ∧ (∀ data config h url key body a,
       Post url key body a ∈ (send_request_to_openai W data config h).2 →
       reply_ok a = false →
       (send_request_to_openai W data config h).1 = Ret None)
  ∧ (∀ commit_message h e,
       GitCommit commit_message (Raise e) ∈ (make_commit W commit_message h).2 →
       (make_commit W commit_message h).1
       = if is_CalledProcessError e then Ret None else Raise e)
  ∧ (∀ t1 e t2,
       (main W []).2 = t1 ++ e :: t2 → failed_call e = true →
       stages t2 = (if is_Post e then [NormalizeResponse; PrefixByBranch] else [])
       ∧ no_commit t2).
Proof.
  split; [|split; [|split]].
  - intros config h cmd e. rewrite get_git_diff_run.
    destruct (getitem config GIT_COMMAND) as [cmd'|e']; cbn [fst snd]; intros Hin.
    + explicit_in Hin. injection Hin as _ <-. done.
    + explicit_in Hin.
  - intros data config h url key body a. rewrite send_request_to_openai_run.
    destruct (getitem config OPENAI_API_KEY) as [key'|e']; cbn [fst snd];
      [|intros Hin; explicit_in Hin].
    destruct (getitem config OPENAI_API_URL) as [url'|e']; cbn [fst snd];
      [|intros Hin; explicit_in Hin].
    intros Hin Hno. explicit_in Hin. injection Hin as _ _ _ <-.
    rewrite Hno. by destruct a.
  - intros commit_message h e. rewrite make_commit_run. cbn [fst snd].
    intros Hin. explicit_in Hin. injection Hin as <-. done.
  - intros t1 e t2 Ht Hf.
    pose proof (main_failures W) as Hall. rewrite Forall_forall in Hall.
    destruct (Hall _ (failures_spec _ _ _ _ Ht Hf)) as [Hs Hc].
    split; [done|by apply no_commit_explicit].
Qed.

(** ** The token limit *)

(** [get_commit_suggestions] and the check, unfolded for a symbolic run. *)
Ltac unfold_suggestions :=
  cbv [get_commit_suggestions check_token_count_and_get_confirmation count_tokens
       mbind M_bind mret M_ret bind ret raise lift try ask call].



(** ** The configuration *)

Ltac lookups :=
  repeat first [rewrite lookup_insert_eq | rewrite lookup_insert_ne by done].

Lemma key_is_not_prefix : OPENAI_API_KEY ≠ TASK_PREFIX.
Proof. by vm_compute. Qed.

(** X1.  What [load_config] returns and writes: the configuration that was
    read, with the key replaced by what the user typed when it was the
    placeholder, and likewise the task prefix; every other field is as it
    was read; the file is written, with the configuration that is returned,
    exactly when the task prefix was the placeholder. *)
Lemma load_config_spec (W : World) (h : list event) (config' : json) (t : list event) :
  load_config W h = (Ret config', t) →
  ∃ (d d' : gmap str json) (key prefix : json),
    ReadConfig (Ret (JObj d)) ∈ t
    ∧ config' = JObj d'
    ∧ d !! OPENAI_API_KEY = Some key
    ∧ d !! TASK_PREFIX = Some prefix
    ∧ (∀ k, k ≠ OPENAI_API_KEY → k ≠ TASK_PREFIX → d' !! k = d !! k)
    ∧ (if eq_str key YOUR_TOKEN_KEY
       then ∃ typed, Input "Please enter your OpenAI API key: " (Ret typed) ∈ t
                     ∧ d' !! OPENAI_API_KEY = Some (JStr typed)
       else d' !! OPENAI_API_KEY = Some key)
    ∧ (if eq_str prefix YOUR_TASK_PREFIX
       then ∃ typed, Input "Please enter your task prefix: " (Ret typed) ∈ t
                     ∧ d' !! TASK_PREFIX = Some (JStr typed)
                     ∧ WriteConfig config' (Ret ()) ∈ t
       else d' !! TASK_PREFIX = Some prefix ∧ ∀ written r, WriteConfig written r ∉ t).
Proof.
  pose proof key_is_not_prefix as Hne.
  assert (TASK_PREFIX ≠ OPENAI_API_KEY) as Hne' by done.
  cbv [load_config mbind M_bind mret M_ret bind ret raise lift try ask call].
  explore; cbn [app]; intros [= <- <-].
  all: repeat match goal with
       | H : getitem _ _ = Ret _ |- _ => apply getitem_Ret in H as (? & ? & H)
       | H : ?v = JObj _ |- _ => first [subst v | injection H as <-]
       | H : setitem (JObj _) _ _ = Ret _ |- _ => injection H as <-
       | u : () |- _ => destruct u
       end.
  all: rewrite ?lookup_insert_ne in * by done.
  all: eexists _, _, _, _; split; [solve_in|]; split; [reflexivity|].
  all: split; [eassumption|]; split; [eassumption|].
  all: split; [intros k Hk1 Hk2; by rewrite ?lookup_insert_ne by done|].
  all: repeat match goal with H : eq_str _ _ = _ |- _ => rewrite H; clear H end.
  all: split;
    [ first [ eexists; split; [solve_in|lookups; done] | lookups; done ]
    | first [ eexists; split; [solve_in|split; [lookups; done|solve_in]]
            | split; [lookups; done|intros written r Hin; explicit_in Hin] ] ].
Qed.

(** The run in which only the key is the placeholder. *)
Lemma load_config_spec_witness :
  load_config Sample.key_missing []
  = (Ret (Sample.fresh_config "sk-typed" "IOS"),
     [ReadConfig (Ret (Sample.fresh_config YOUR_TOKEN_KEY "IOS"));
      Input "Please enter your OpenAI API key: " (Sample.ok "sk-typed")])
  ∧ ∃ (d d' : gmap str json) (key prefix : json),
      d !! OPENAI_API_KEY = Some key
      ∧ d !! TASK_PREFIX = Some prefix
      ∧ ∀ k, k ≠ OPENAI_API_KEY → k ≠ TASK_PREFIX → d' !! k = d !! k.
Proof.
  assert (load_config Sample.key_missing []
    = (Ret (Sample.fresh_config "sk-typed" "IOS"),
       [ReadConfig (Ret (Sample.fresh_config YOUR_TOKEN_KEY "IOS"));
        Input "Please enter your OpenAI API key: " (Sample.ok "sk-typed")])) as Hrun
    by (vm_compute; reflexivity).
  split; [exact Hrun|].
  destruct (load_config_spec Sample.key_missing [] _ _ Hrun)
    as (d & d' & key & prefix & _ & _ & Hkey & Hprefix & Hframe & _).
  by exists d, d', key, prefix.
Defined.

(** [load_config] reads the configuration file first, and once. *)
Lemma load_config_reads_once (W : World) (h : list event) :
  ∃ r l, (load_config W h).2 = ReadConfig r :: l
         ∧ forallb (λ e, negb (is_read e)) l = true.
Proof.
  cbv [load_config mbind M_bind mret M_ret bind ret raise lift try ask call].
  explore; cbn [app snd]; by eexists _, _.
Qed.

(** X2.  The configuration is loaded once per run: the file is read when the
    run starts, and not again. *)
Theorem main_reads_once (W : World) :
  ∃ r t, (main W []).2 = Enter F_load_config :: ReadConfig r :: t
         ∧ ∀ r', ReadConfig r' ∉ t.
Proof.
  assert (∃ r t, (main W []).2 = Enter F_load_config :: ReadConfig r :: t
                 ∧ forallb (λ e, negb (is_read e)) t = true) as (r & t & Ht & Hall).
  { pattern ((main W []).2).
    match goal with |- ?P ?t => set (Q := P) end.
    unfold_main. explore; leaf; subst Q; cbv beta.
    all: match goal with
         | H : load_config ?W ?h = _ |- _ =>
             destruct (load_config_reads_once W h) as (r & l' & Hl & Hl');
             rewrite H in Hl; cbn [snd] in Hl; subst
         end.
    all: eexists _, _; split; [reflexivity|].
    all: rewrite forallb_app, Hl'; reflexivity. }
  exists r, t. split; [done|]. intros r' Hin.
  rewrite forallb_forall in Hall. apply list_elem_of_In, Hall in Hin. discriminate Hin.
Qed.

(** C4 (a defect of the code).  A configuration whose key is the
    placeholder and whose task prefix is not: the file is read, the user is
    asked for the key, and the configuration is returned with the key that
    was typed; nothing is written to the configuration file. *)
Theorem C4_key_not_persisted :
  load_config Sample.key_missing []
  = (Ret (Sample.fresh_config "sk-typed" "IOS"),
     [ReadConfig (Ret (Sample.fresh_config YOUR_TOKEN_KEY "IOS"));
      Input "Please enter your OpenAI API key: " (Sample.ok "sk-typed")])
  ∧ ∀ written r, WriteConfig written r ∉ (load_config Sample.key_missing []).2.
Proof.
  split; [vm_compute; reflexivity|].
  intros written r Hin. vm_compute in Hin. explicit_in Hin.
Qed.

(** * Further properties *)

(** ** What normalization keeps *)

(** Induction for the functions that read a text two characters at a time. *)
Lemma pairs_ind (P : str → Prop) :
  P [] → (∀ a, P [a]) → (∀ a b r, P r → P (b :: r) → P (a :: b :: r)) → ∀ s, P s.
Proof.
  intros Hnil Hone Hstep s.
  assert (P s ∧ ∀ a, P (a :: s)) as [? _]; [|done].
  induction s as [|b r [IH1 IH2]]; [done|].
  split; [apply IH2|]. intros a. apply Hstep; [done|apply IH2].
Qed.

Lemma lstrip_suffix (s : str) : lstrip s `suffix_of` s.
Proof. destruct (lstrip_decompose s) as (ws & Hws & _). by exists ws. Qed.

Lemma rstrip_prefix (s : str) : rstrip s `prefix_of` s.
Proof.
  unfold rstrip. destruct (lstrip_decompose (reverse s)) as (ws & Hws & _).
  exists (reverse ws). apply (f_equal reverse) in Hws.
  by rewrite reverse_involutive, reverse_app in Hws.
Qed.

Lemma prefix_sublist {A} (l k : list A) : l `prefix_of` k → l `sublist_of` k.
Proof. intros [? ->]. by apply sublist_inserts_r. Qed.

Lemma suffix_sublist {A} (l k : list A) : l `suffix_of` k → l `sublist_of` k.
Proof. intros [? ->]. by apply sublist_inserts_l. Qed.

Lemma strip_sublist (s : str) : strip s `sublist_of` s.
Proof.
  unfold strip.
  etrans; [apply prefix_sublist, rstrip_prefix|apply suffix_sublist, lstrip_suffix].
Qed.

Lemma skip_digits_suffix (s : str) : Re.skip_digits s `suffix_of` s.
Proof.
  induction s as [|c s IH]; simpl; [done|].
  destruct (is_digit c); [by apply suffix_cons_r|done].
Qed.

Lemma marker_suffix (s r : str) : Re.marker s = Some r → r `suffix_of` s.
Proof.
  unfold Re.marker. destruct s as [|c s]; [done|].
  destruct (is_digit c).
  - destruct (Re.skip_digits s) as [|d r'] eqn:Hd; [done|].
    destruct (is_char "." d); [|done]. intros [= <-].
    apply suffix_cons_r. etrans; [|apply skip_digits_suffix].
    rewrite Hd. by apply suffix_cons_r.
  - destruct (_ || _); [|done]. intros [= <-]. by apply suffix_cons_r.
Qed.

Lemma sub_list_marker_suffix (s : str) : Re.sub_list_marker s `suffix_of` s.
Proof.
  unfold Re.sub_list_marker. destruct (Re.marker s) as [[|c r]|] eqn:Hm; try done.
  destruct (is_space c); [|done].
  apply marker_suffix in Hm.
  etrans; [apply lstrip_suffix|]. etrans; [|exact Hm]. by apply suffix_cons_r.
Qed.

Lemma sub_initial_quote_suffix (s : str) : Re.sub_initial_quote s `suffix_of` s.
Proof.
  destruct s as [|c s]; simpl; [done|].
  destruct (is_quote c); [by apply suffix_cons_r|done].
Qed.

Lemma sub_trailing_quote_sublist (s : str) : Re.sub_trailing_quote s `sublist_of` s.
Proof.
  unfold Re.sub_trailing_quote.
  destruct (reverse s) as [|c r] eqn:Hr; [done|].
  assert (s = reverse r ++ [c]) as Hs.
  { apply (f_equal reverse) in Hr. by rewrite reverse_involutive, reverse_cons in Hr. }
  destruct (is_quote c).
  - rewrite Hs. by apply sublist_inserts_r.
  - destruct (is_char LF c); [|done]. destruct r as [|q r']; [done|].
    destruct (is_quote q); [|done].
    rewrite Hs, !reverse_cons, <- app_assoc.
    apply sublist_app; [done|]. by apply sublist_cons.
Qed.

Lemma sub_quote_colon_eq (a b : ascii) (r : str) :
  Re.sub_quote_colon (a :: b :: r)
  = if is_quote a && is_char ":" b then ":"%char :: Re.sub_quote_colon r
    else a :: Re.sub_quote_colon (b :: r).
Proof. done. Qed.

Lemma sub_colon_quote_eq (a b : ascii) (r : str) :
  Re.sub_colon_quote (a :: b :: r)
  = if is_char ":" a && is_quote b then ":"%char :: Re.sub_colon_quote r
    else a :: Re.sub_colon_quote (b :: r).
Proof. done. Qed.

Lemma sub_backslash_n_eq (a b : ascii) (r : str) :
  Re.sub_backslash_n (a :: b :: r)
  = if is_char "\" a && is_char "n" b then Re.sub_backslash_n r
    else a :: Re.sub_backslash_n (b :: r).
Proof. done. Qed.

Lemma sub_quote_colon_sublist (s : str) : Re.sub_quote_colon s `sublist_of` s.
Proof.
  induction s as [|a|a b r IH1 IH2] using pairs_ind; [done..|].
  rewrite sub_quote_colon_eq. destruct (is_quote a && is_char ":" b) eqn:H.
  - apply andb_true_iff in H as [_ ->%bool_decide_eq_true].
    apply sublist_cons. by apply sublist_skip.
  - by apply sublist_skip.
Qed.

Lemma sub_colon_quote_sublist (s : str) : Re.sub_colon_quote s `sublist_of` s.
Proof.
  induction s as [|a|a b r IH1 IH2] using pairs_ind; [done..|].
  rewrite sub_colon_quote_eq. destruct (is_char ":" a && is_quote b) eqn:H.
  - apply andb_true_iff in H as [->%bool_decide_eq_true _].
    apply sublist_skip. by apply sublist_cons.
  - by apply sublist_skip.
Qed.

Lemma sub_backslash_n_sublist (s : str) : Re.sub_backslash_n s `sublist_of` s.
Proof.
  induction s as [|a|a b r IH1 IH2] using pairs_ind; [done..|].
  rewrite sub_backslash_n_eq. destruct (is_char "\" a && is_char "n" b).
  - by do 2 apply sublist_cons.
  - by apply sublist_skip.
Qed.

Lemma normalize_message_filter_sublist (message : str) :
  normalize_message_filter message `sublist_of` message.
Proof.
  unfold normalize_message_filter. cbv zeta.
  etrans; [apply strip_sublist|].
  etrans; [apply sub_backslash_n_sublist|].
  etrans; [apply sub_colon_quote_sublist|].
  etrans; [apply sub_quote_colon_sublist|].
  etrans; [apply sub_trailing_quote_sublist|].
  etrans; [apply suffix_sublist, sub_initial_quote_suffix|].
  etrans; [apply suffix_sublist, sub_list_marker_suffix|].
  apply strip_sublist.
Qed.

Lemma sublist_not_elem_of {A} (l k : list A) (x : A) :
  l `sublist_of` k → x ∉ k → x ∉ l.
Proof. intros Hs Hx Hin. apply Hx. by eapply elem_of_sublist. Qed.

(** X3.  Normalization only deletes: a normalized message is what is left of
    the message when some of its characters are taken out, and every
    suggestion is what is left of one line of the response, a line after the
    first that is longer than one character; no suggestion holds a line feed. *)
Theorem normalization_only_deletes :
  (∀ message : str, normalize_message_filter message `sublist_of` message)
  ∧ (∀ content suggestion : str,
       suggestion ∈ normalize_messages content →
       (LF ∉ suggestion)
       ∧ ∃ line, line ∈ drop 1 (split content [LF]) ∧ 1 < length line
                 ∧ suggestion `sublist_of` line).
Proof.
  split; [apply normalize_message_filter_sublist|].
  intros content suggestion. rewrite normalize_messages_list.
  intros (line & -> & [Hlen Hin]%list_elem_of_filter)%list_elem_of_fmap.
  assert (LF ∉ line) as Hline.
  { pose proof (split_pieces content LF) as Hall. rewrite Forall_forall in Hall.
    apply Hall. revert Hin. generalize (split content [LF]). intros [|p ps]; simpl.
    - by intros ?%elem_of_nil.
    - rewrite drop_0. by right. }
  split.
  - eapply sublist_not_elem_of; [apply normalize_message_filter_sublist|done].
  - exists line. split; [done|]. split; [done|apply normalize_message_filter_sublist].
Qed.

(** ** Messages that normalization leaves alone *)

Lemma stripped_last (s : str) (c : ascii) (r : str) :
  strip s = s → reverse s = c :: r → is_space c = false.
Proof.
  intros Hs Hr. rewrite <- Hs in Hr. unfold strip, rstrip in Hr.
  rewrite reverse_involutive in Hr. by eapply lstrip_head.
Qed.

Lemma sub_quote_colon_plain (s : str) :
  Forall (λ c, is_quote c = false) s → Re.sub_quote_colon s = s.
Proof.
  induction s as [|a|a b r IH1 IH2] using pairs_ind; [done..|].
  intros Hall. rewrite sub_quote_colon_eq.
  apply Forall_cons in Hall as [-> Hall]. cbn [andb]. by rewrite IH2.
Qed.

Lemma sub_colon_quote_plain (s : str) :
  Forall (λ c, is_quote c = false) s → Re.sub_colon_quote s = s.
Proof.
  induction s as [|a|a b r IH1 IH2] using pairs_ind; [done..|].
  intros Hall. rewrite sub_colon_quote_eq.
  apply Forall_cons in Hall as [_ Hall]. rewrite IH2 by done.
  apply Forall_cons in Hall as [-> _]. by rewrite andb_false_r.
Qed.

Lemma sub_backslash_n_plain (s : str) :
  Forall (λ c, c ≠ "\"%char) s → Re.sub_backslash_n s = s.
Proof.
  induction s as [|a|a b r IH1 IH2] using pairs_ind; [done..|].
  intros Hall. rewrite sub_backslash_n_eq.
  apply Forall_cons in Hall as [Ha Hall]. rewrite IH2 by done.
  unfold is_char at 1. by rewrite bool_decide_false.
Qed.

(** X4.  A message that has no white space around it, holds no quote and no
    backslash and does not start with a digit, a dash or a star is its own
    normal form. *)
Theorem normalize_message_filter_plain (message : str) :
  strip message = message →
  Forall (λ c, is_quote c = false ∧ c ≠ "\"%char) message →
  (∀ c rest, message = c :: rest → is_digit c = false ∧ c ≠ "-"%char ∧ c ≠ "*"%char) →
  normalize_message_filter message = message.
Proof.
  intros Hstrip Hall Hfirst.
  assert (Forall (λ c, is_quote c = false) message) as Hq
    by (eapply Forall_impl; [exact Hall|]; by intros ? [? ?]).
  assert (Forall (λ c, c ≠ "\"%char) message) as Hb
    by (eapply Forall_impl; [exact Hall|]; by intros ? [? ?]).
  assert (Re.sub_list_marker message = message) as Hm.
  { unfold Re.sub_list_marker, Re.marker. destruct message as [|c rest]; [done|].
    destruct (Hfirst c rest eq_refl) as (-> & Hdash & Hstar).
    unfold is_char. by rewrite !bool_decide_false. }
  assert (Re.sub_initial_quote message = message) as Hi.
  { destruct message as [|c rest]; [done|]. simpl.
    apply Forall_cons in Hq as [-> _]. done. }
  assert (Re.sub_trailing_quote message = message) as Ht.
  { unfold Re.sub_trailing_quote. destruct (reverse message) as [|c r] eqn:Hr; [done|].
    assert (c ∈ message) as Hc by (apply elem_of_reverse; rewrite Hr; by left).
    rewrite Forall_forall in Hq. rewrite (Hq c Hc).
    pose proof (stripped_last _ _ _ Hstrip Hr) as Hsp.
    unfold is_char. rewrite bool_decide_false; [done|]. by intros ->. }
  unfold normalize_message_filter. cbv zeta.
  by rewrite Hstrip, Hm, Hi, Ht, sub_quote_colon_plain, sub_colon_quote_plain,
    sub_backslash_n_plain.
Qed.

Lemma normalize_message_filter_plain_witness :
  normalize_message_filter "Fix login crash" = "Fix login crash".
Proof.
  apply (normalize_message_filter_plain "Fix login crash").
  - reflexivity.
  - repeat constructor; by vm_compute.
  - intros c rest [= <- <-]. repeat split; by vm_compute.
Defined.

(** ** The first line of a response *)

Lemma split_no_sep (s : str) (c : ascii) : c ∉ s → split s [c] = [s].
Proof.
  induction s as [|x s IH]; intros Hc; [done|].
  apply not_elem_of_cons in Hc as [Hx Hc].
  rewrite split_char.
  - by rewrite IH.
  - simpl. rewrite andb_true_r. apply bool_decide_eq_false. by intros ->.
Qed.

Lemma split_app_sep (first rest : str) (c : ascii) :
  c ∉ first → split (first ++ c :: rest) [c] = first :: split rest [c].
Proof.
  induction first as [|x s IH]; intros Hc.
  - change ([] ++ c :: rest) with ([c] ++ rest). by rewrite split_sep.
  - apply not_elem_of_cons in Hc as [Hx Hc]. simpl.
    rewrite split_char.
    + by rewrite IH.
    + simpl. rewrite andb_true_r. apply bool_decide_eq_false. by intros ->.
Qed.

Lemma normalize_message_filter_blank (line : str) :
  blank line → normalize_message_filter line = [].
Proof.
  intros Hb. apply strip_nil_iff in Hb.
  unfold normalize_message_filter. cbv zeta. by rewrite Hb.
Qed.

(** X5.  The suggestions are read from what follows the first line feed of the
    response: a response of one line gives none, whatever the line says, and a
    first line [first] followed by [rest] gives the normalized lines of [rest]
    that are longer than one character.  Such a line of white space gives an
    empty suggestion. *)
Theorem normalize_messages_first_line (first rest : str) :
  LF ∉ first →
  normalize_messages first = []
  ∧ normalize_messages (first ++ LF :: rest)
    = normalize_message_filter <$> filter (λ line, 1 < length line) (split rest [LF])
  ∧ (LF ∉ rest → blank rest → 1 < length rest →
     normalize_messages (first ++ LF :: rest) = [[]]).
Proof.
  intros Hfirst.
  assert (normalize_messages (first ++ LF :: rest)
    = normalize_message_filter <$> filter (λ line, 1 < length line) (split rest [LF])) as Hrest.
  { rewrite normalize_messages_list, split_app_sep by done. simpl. by rewrite drop_0. }
  split; [|split; [done|]].
  - rewrite normalize_messages_list, split_no_sep by done. done.
  - intros Hno Hblank Hlen. rewrite Hrest, split_no_sep by done.
    rewrite filter_cons, decide_True by done. rewrite filter_nil. simpl.
    by rewrite normalize_message_filter_blank.
Qed.

Lemma normalize_messages_first_line_witness :
  (LF ∉ ("Here are three suggestions:" : str))
  ∧ normalize_messages "Here are three suggestions:" = []
  ∧ normalize_messages ("Here are three suggestions:" ++ LF :: "- Add tests")
    = ["Add tests" : str].
Proof.
  assert (LF ∉ ("Here are three suggestions:" : str)) as H
    by (apply (bool_decide_unpack _); by vm_compute).
  split; [exact H|].
  destruct (normalize_messages_first_line "Here are three suggestions:" "- Add tests" H)
    as (H1 & H2 & _).
  split; [exact H1|]. rewrite H2. reflexivity.
Defined.

(** ** A line of a reply *)

Lemma quote_not_space (c : ascii) : is_quote c = true → is_space c = false.
Proof.
  unfold is_quote. intros [->%bool_decide_eq_true| ->%bool_decide_eq_true]%orb_true_iff; done.
Qed.

Lemma digit_not_space (c : ascii) : is_digit c = true → is_space c = false.
Proof. by destruct c as [[] [] [] [] [] [] [] []]. Qed.

Lemma lstrip_app_blank (ws s : str) : blank ws → lstrip (ws ++ s) = lstrip s.
Proof.
  induction 1 as [|c ws Hc _ IH]; [done|]. simpl. by rewrite Hc.
Qed.

Lemma lstrip_cons (c : ascii) (s : str) : is_space c = false → lstrip (c :: s) = c :: s.
Proof. intros Hc. simpl. by rewrite Hc. Qed.

(** A text that starts and ends with something else than white space. *)
Lemma strip_ends (c l : ascii) (s : str) :
  is_space c = false → is_space l = false →
  strip (c :: s ++ [l]) = c :: s ++ [l] ∧ strip [c] = [c].
Proof.
  intros Hc Hl. unfold strip, rstrip. rewrite !lstrip_cons by done. split.
  - change (c :: s ++ [l]) with ((c :: s) ++ [l]).
    rewrite reverse_app. change (reverse [l]) with [l]. cbn [app].
    by rewrite lstrip_cons, reverse_cons, reverse_involutive.
  - change (reverse [c]) with [c]. by rewrite lstrip_cons.
Qed.

Lemma strip_blank_app (ws1 x ws3 : str) :
  blank ws1 → blank ws3 → x ≠ [] → lstrip x = x → rstrip x = x →
  strip (ws1 ++ x ++ ws3) = x.
Proof.
  intros H1 H3 Hne Hl Hr. unfold strip.
  rewrite lstrip_app_blank by done.
  destruct x as [|c r]; [done|].
  assert (is_space c = false) as Hc by (by eapply lstrip_head).
  change ((c :: r) ++ ws3) with (c :: r ++ ws3). rewrite lstrip_cons by done.
  unfold rstrip in *. change (c :: r ++ ws3) with ((c :: r) ++ ws3).
  rewrite reverse_app, lstrip_app_blank by (by apply blank_reverse). done.
Qed.

Lemma stripped_lstrip (x : str) : strip x = x → lstrip x = x ∧ rstrip x = x.
Proof.
  intros Hs.
  destruct (lstrip_suffix x) as [k Hk].
  destruct (rstrip_prefix (lstrip x)) as [k' Hk'].
  fold (strip x) in Hk'. rewrite Hs in Hk'.
  assert (k = []) as ->.
  { apply (f_equal length) in Hk, Hk'. rewrite length_app in Hk, Hk'.
    destruct k; [done|]. simpl in *. lia. }
  simpl in Hk. split; [done|]. unfold strip in Hs. by rewrite <- Hk in Hs.
Qed.

Lemma skip_digits_dot (digits rest : str) :
  Forall (λ c, is_digit c = true) digits →
  Re.skip_digits (digits ++ "."%char :: rest) = "."%char :: rest.
Proof. induction 1 as [|c ds Hc _ IH]; [done|]. simpl. by rewrite Hc. Qed.

Lemma marker_list_marker (m rest : str) :
  list_marker m → Re.marker (m ++ rest) = Some rest
                  ∧ ∃ c m', m = c :: m' ∧ is_space c = false.
Proof.
  intros [(digits & Hne & Hd & ->)|[->| ->]]; [|by split; [|eexists _, _]..].
  destruct Hd as [|d ds Hd Hds]; [done|]. split.
  - rewrite <- app_assoc. change ("." ++ rest) with ("."%char :: rest).
    cbn [app Re.marker]. by rewrite Hd, skip_digits_dot.
  - eexists _, _. split; [done|]. by apply digit_not_space.
Qed.

Lemma sub_list_marker_list_marker (m ws y : str) :
  list_marker m → blank ws → ws ≠ [] → lstrip y = y →
  Re.sub_list_marker (m ++ ws ++ y) = y.
Proof.
  intros Hm Hws Hne Hy. unfold Re.sub_list_marker.
  destruct (marker_list_marker m (ws ++ y) Hm) as [-> _].
  destruct Hws as [|c ws Hc Hws]; [done|]. simpl. rewrite Hc.
  by rewrite lstrip_app_blank.
Qed.

Lemma sub_trailing_quote_plain (s : str) :
  strip s = s → Forall (λ c, is_quote c = false) s → Re.sub_trailing_quote s = s.
Proof.
  intros Hstrip Hq. unfold Re.sub_trailing_quote.
  destruct (reverse s) as [|c r] eqn:Hr; [done|].
  assert (c ∈ s) as Hc by (apply elem_of_reverse; rewrite Hr; by left).
  rewrite Forall_forall in Hq. rewrite (Hq c Hc).
  pose proof (stripped_last _ _ _ Hstrip Hr) as Hsp.
  unfold is_char. rewrite bool_decide_false; [done|]. by intros ->.
Qed.

Lemma bare_ends (message : str) :
  bare message →
  (∃ c r, message = c :: r ∧ is_space c = false ∧ is_quote c = false)
  ∧ (∃ r l, message = r ++ [l] ∧ is_space l = false).
Proof.
  intros (Hne & Hstrip & Hall). split.
  - destruct message as [|c r]; [done|]. exists c, r. split; [done|].
    destruct (stripped_lstrip _ Hstrip) as [Hl _].
    split; [by eapply lstrip_head|]. by apply Forall_cons in Hall as [[? _] _].
  - destruct (reverse message) as [|l r] eqn:Hr.
    + apply (f_equal reverse) in Hr. by rewrite reverse_involutive in Hr.
    + exists (reverse r), l. split; [|by eapply stripped_last].
      apply (f_equal reverse) in Hr. by rewrite reverse_involutive, reverse_cons in Hr.
Qed.

(** X6.  A line of a list, as the replies have them: white space, a list
    marker, white space, the message between quotes or without, white space.
    Normalization returns the message. *)
Theorem normalize_message_filter_line (ws1 m ws2 q1 message q2 ws3 : str) :
  blank ws1 → list_marker m → blank ws2 → ws2 ≠ [] →
  optional_quote q1 → bare message → optional_quote q2 → blank ws3 →
  normalize_message_filter (ws1 ++ m ++ ws2 ++ q1 ++ message ++ q2 ++ ws3) = message.
Proof.
  intros Hws1 Hm Hws2 Hne2 Hq1 Hbare Hq2 Hws3.
  destruct (bare_ends message Hbare)
    as [(c & r & Hc & Hcs & Hcq) (r' & l & Hl & Hls)].
  destruct Hbare as (Hne & Hstrip & Hall).
  assert (Forall (λ c, is_quote c = false) message) as Hq
    by (eapply Forall_impl; [exact Hall|]; by intros ? [? ?]).
  assert (Forall (λ c, c ≠ "\"%char) message) as Hb
    by (eapply Forall_impl; [exact Hall|]; by intros ? [? ?]).
  (* the line without the white space around it *)
  set (y := q1 ++ message ++ q2).
  assert (lstrip y = y) as Hy.
  { subst y. destruct Hq1 as [->|(q & Hq1 & ->)].
    - rewrite Hc. simpl. by rewrite Hcs.
    - simpl. by rewrite (quote_not_space q). }
  assert (∃ body last, y = body ++ [last] ∧ is_space last = false) as (body & last & Hlast & Hlasts).
  { subst y. destruct Hq2 as [->|(q & Hq2 & ->)].
    - exists (q1 ++ r'), l. split; [|done]. by rewrite app_nil_r, Hl, app_assoc.
    - exists (q1 ++ message), q. split; [by rewrite app_assoc|]. by apply quote_not_space. }
  destruct (marker_list_marker m [] Hm) as [_ (d & m' & -> & Hd)].
  assert (strip (ws1 ++ ((d :: m') ++ ws2 ++ y) ++ ws3) = (d :: m') ++ ws2 ++ y) as Hs.
  { rewrite Hlast.
    destruct (strip_ends d last (m' ++ ws2 ++ body) Hd Hlasts) as [Hends _].
    replace ((d :: m') ++ ws2 ++ body ++ [last]) with (d :: (m' ++ ws2 ++ body) ++ [last])
      by (by rewrite <- !app_assoc).
    destruct (stripped_lstrip _ Hends) as [Hl' Hr'].
    by apply strip_blank_app. }
  unfold normalize_message_filter. cbv zeta.
  replace (ws1 ++ (d :: m') ++ ws2 ++ q1 ++ message ++ q2 ++ ws3)
    with (ws1 ++ ((d :: m') ++ ws2 ++ y) ++ ws3)
    by (subst y; by rewrite <- !app_assoc).
  rewrite Hs, (sub_list_marker_list_marker _ _ _ Hm Hws2 Hne2 Hy).
  assert (Re.sub_initial_quote y = message ++ q2) as ->.
  { subst y. destruct Hq1 as [->|(q & Hq1 & ->)].
    - rewrite Hc. simpl. by rewrite Hcq.
    - simpl. by rewrite Hq1. }
  assert (Re.sub_trailing_quote (message ++ q2) = message) as ->.
  { destruct Hq2 as [->|(q & Hq2 & ->)].
    - rewrite app_nil_r. by apply sub_trailing_quote_plain.
    - unfold Re.sub_trailing_quote. rewrite reverse_app. simpl.
      by rewrite Hq2, reverse_involutive. }
  by rewrite sub_quote_colon_plain, sub_colon_quote_plain, sub_backslash_n_plain.
Qed.

(** A numbered line of the sample reply. *)
Lemma normalize_message_filter_line_witness :
  normalize_message_filter (" " ++ "12." ++ "  " ++ "'" ++ "Fix login crash" ++ "'" ++ " ")
  = "Fix login crash".
Proof.
  apply (normalize_message_filter_line " " "12." "  " "'" "Fix login crash" "'" " ").
  - by repeat constructor.
  - left. exists "12". split; [done|]. split; [by repeat constructor|done].
  - by repeat constructor.
  - done.
  - right. by exists "'"%char.
  - split; [done|]. split; [reflexivity|]. repeat constructor; by vm_compute.
  - right. by exists "'"%char.
  - by repeat constructor.
Defined.

(** ** What normalization takes away *)

Lemma rstrip_decompose (s : str) : ∃ ws, s = rstrip s ++ ws ∧ blank ws.
Proof.
  unfold rstrip. destruct (lstrip_decompose (reverse s)) as (ws & Hws & Hb).
  exists (reverse ws). split; [|by apply blank_reverse].
  apply (f_equal reverse) in Hws. by rewrite reverse_involutive, reverse_app in Hws.
Qed.

(** [strip] takes the white space around the text away, all of it. *)
Lemma strip_spec (s : str) : stripped_of s (strip s).
Proof.
  destruct (lstrip_decompose s) as (ws1 & Hws1 & Hb1).
  destruct (rstrip_decompose (lstrip s)) as (ws2 & Hws2 & Hb2).
  exists ws1, ws2. fold (strip s) in Hws2.
  split; [by rewrite <- Hws2|]. split; [done|]. split; [done|].
  pose proof (strip_stripped s) as Hs. split.
  - intros c r Hc. destruct (stripped_lstrip _ Hs) as [Hl _].
    rewrite Hc in Hl. by eapply lstrip_head.
  - intros r c Hc. apply (stripped_last (strip s) c (reverse r) Hs).
    by rewrite Hc, reverse_app.
Qed.

Lemma skip_digits_decompose (s : str) :
  ∃ digits, s = digits ++ Re.skip_digits s ∧ Forall (λ c, is_digit c = true) digits.
Proof.
  induction s as [|c s (ds & Hds & Hall)]; simpl.
  - exists []. split; [done|constructor].
  - destruct (is_digit c) eqn:Hc.
    + exists (c :: ds). split; [by rewrite Hds at 1|by constructor].
    + exists []. split; [done|constructor].
Qed.

(** What [Re.marker] passes over is a list marker. *)
Lemma marker_Some (s rest : str) :
  Re.marker s = Some rest → ∃ m, list_marker m ∧ s = m ++ rest.
Proof.
  unfold Re.marker. destruct s as [|c s]; [done|].
  destruct (is_digit c) eqn:Hc.
  - destruct (skip_digits_decompose s) as (ds & Hds & Hall).
    destruct (Re.skip_digits s) as [|d r]; [done|].
    unfold is_char. case_bool_decide as Hd; [|done]. subst d. intros [= <-].
    exists ((c :: ds) ++ "."). split.
    + left. exists (c :: ds). split; [done|]. split; [by constructor|done].
    + rewrite Hds at 1. by rewrite <- app_assoc.
  - unfold is_char. destruct (bool_decide (c = "-"%char)) eqn:Hdash.
    + apply bool_decide_eq_true in Hdash as ->. intros [= <-].
      exists "-". split; [right; by left|done].
    + destruct (bool_decide (c = "*"%char)) eqn:Hstar; [|done].
      apply bool_decide_eq_true in Hstar as ->. intros [= <-].
      exists "*". split; [right; by right|done].
Qed.

Lemma sub_list_marker_spec (s : str) : without_marker s (Re.sub_list_marker s).
Proof.
  unfold Re.sub_list_marker.
  assert (∀ o, Re.marker s = o →
            match o with Some (c :: _) => is_space c = false | _ => True end →
            ¬ ∃ m ws r, list_marker m ∧ blank ws ∧ ws ≠ [] ∧ s = m ++ ws ++ r) as Hnone.
  { intros o Ho Hcase (m & ws & r & Hm & Hws & Hne & ->).
    destruct (marker_list_marker m (ws ++ r) Hm) as [Hmarker _].
    rewrite Hmarker in Ho. subst o.
    destruct Hws as [|w ws Hw _]; [done|]. simpl in Hcase. congruence. }
  destruct (Re.marker s) as [[|c r]|] eqn:Hmarker.
  - right. split; [done|]. by apply (Hnone (Some [])).
  - destruct (is_space c) eqn:Hc.
    + left. apply marker_Some in Hmarker as (m & Hm & ->).
      destruct (lstrip_decompose r) as (ws & Hws & Hb).
      exists m, (c :: ws). split; [done|]. split; [by constructor|]. split; [done|].
      split; [by rewrite Hws at 1|].
      intros c' r' Hr. by eapply lstrip_head.
    + right. split; [done|]. by apply (Hnone (Some (c :: r))).
  - right. split; [done|]. by apply (Hnone None).
Qed.

Lemma sub_initial_quote_spec (s : str) : without_initial_quote s (Re.sub_initial_quote s).
Proof.
  destruct s as [|c s]; simpl.
  - right. by split.
  - destruct (is_quote c) eqn:Hc.
    + left. by exists c.
    + right. split; [done|]. by intros ? ? [= <- <-].
Qed.

(** A text that does not end with a line feed: [$] matches at its end
    only. *)
Lemma sub_trailing_quote_spec (s : str) :
  (∀ c r, reverse s = c :: r → is_space c = false) →
  without_trailing_quote s (Re.sub_trailing_quote s).
Proof.
  intros Hlast. unfold Re.sub_trailing_quote.
  destruct (reverse s) as [|c r] eqn:Hr.
  - right. split; [done|]. intros r' c' Hs. rewrite Hs, reverse_app in Hr. done.
  - assert (s = reverse r ++ [c]) as Hs.
    { apply (f_equal reverse) in Hr. by rewrite reverse_involutive, reverse_cons in Hr. }
    destruct (is_quote c) eqn:Hc.
    + left. by exists c.
    + assert (is_char LF c = false) as ->.
      { unfold is_char. apply bool_decide_eq_false. intros ->.
        by specialize (Hlast _ _ eq_refl). }
      right. split; [done|]. intros r' c' Hs'. rewrite Hs in Hs'.
      by apply app_inj_tail in Hs' as [_ <-].
Qed.

Lemma delete_in_context_cons (del : option ascii → ascii → option ascii → bool)
    (before : option ascii) (c : ascii) (r : str) :
  delete_in_context del before (c :: r)
  = if del before c (head r) then delete_in_context del (Some c) r
    else c :: delete_in_context del (Some c) r.
Proof. done. Qed.

Lemma sub_quote_colon_keeps (c : ascii) (r : str) :
  is_quote c = false → Re.sub_quote_colon (c :: r) = c :: Re.sub_quote_colon r.
Proof. intros Hc. destruct r as [|b r]; [done|]. by rewrite sub_quote_colon_eq, Hc. Qed.

Lemma sub_quote_colon_spec (s : str) :
  Re.sub_quote_colon s = without_quotes_before_colon s.
Proof.
  unfold without_quotes_before_colon. generalize (@None ascii).
  induction s as [|a|a b r IH1 IH2] using pairs_ind; intros before; [done|..].
  - cbn [delete_in_context head]. by rewrite andb_false_r.
  - rewrite sub_quote_colon_eq, delete_in_context_cons. cbn [head].
    rewrite <- (IH2 (Some a)). unfold is_char.
    destruct (is_quote a); [|done]. cbn [andb].
    repeat case_bool_decide; simplify_eq; try done.
    by rewrite sub_quote_colon_keeps.
Qed.

Lemma sub_colon_quote_spec_from (s : str) (before : option ascii) :
  (∀ q r, s = q :: r → is_quote q && bool_decide (before = Some ":"%char) = false) →
  Re.sub_colon_quote s
  = delete_in_context (λ before c _, is_quote c && bool_decide (before = Some ":"%char))
      before s.
Proof.
  revert before.
  induction s as [|a|a b r IH1 IH2] using pairs_ind; intros before Hhead; [done|..].
  - cbn [delete_in_context]. by rewrite (Hhead a []).
  - rewrite sub_colon_quote_eq, delete_in_context_cons.
    rewrite (Hhead a (b :: r)) by done. unfold is_char.
    destruct (decide (a = ":"%char)) as [->|Ha].
    + rewrite (bool_decide_true (":"%char = ":"%char)) by done. cbn [andb].
      destruct (is_quote b) eqn:Hb.
      * f_equal. rewrite delete_in_context_cons, Hb, bool_decide_true by done.
        cbn [andb]. apply IH1. intros q r' _.
        rewrite bool_decide_false; [by rewrite andb_false_r|]. intros [= ->]. done.
      * f_equal. apply IH2. intros q r' [= <- <-]. by rewrite Hb.
    + rewrite (bool_decide_false (a = ":"%char)) by done. cbn [andb]. f_equal.
      apply IH2. intros q r' _. rewrite bool_decide_false by congruence.
      by rewrite andb_false_r.
Qed.

Lemma sub_colon_quote_spec (s : str) :
  Re.sub_colon_quote s = without_quotes_after_colon s.
Proof. apply sub_colon_quote_spec_from. intros q r _. by rewrite andb_false_r. Qed.

Lemma sub_backslash_n_spec_from (s : str) (before : option ascii) :
  (∀ c r, s = c :: r → is_char "n" c && bool_decide (before = Some "\"%char) = false) →
  Re.sub_backslash_n s
  = delete_in_context
      (λ before c after,
         is_char "\" c && bool_decide (after = Some "n"%char)
         || is_char "n" c && bool_decide (before = Some "\"%char))
      before s.
Proof.
  revert before.
  induction s as [|a|a b r IH1 IH2] using pairs_ind; intros before Hhead; [done|..].
  - cbn [delete_in_context head]. by rewrite (Hhead a []), andb_false_r.
  - rewrite sub_backslash_n_eq, delete_in_context_cons. cbn [head].
    rewrite (Hhead a (b :: r)) by done. rewrite orb_false_r. unfold is_char in *.
    destruct (decide (a = "\"%char)) as [->|Ha].
    + rewrite (bool_decide_true ("\"%char = "\"%char)) by done. cbn [andb].
      destruct (decide (b = "n"%char)) as [->|Hb].
      * rewrite (bool_decide_true ("n"%char = "n"%char)) by done.
        rewrite (bool_decide_true (Some "n"%char = Some "n"%char)) by done.
        rewrite delete_in_context_cons.
        rewrite (bool_decide_true ("n"%char = "n"%char)) by done.
        rewrite (bool_decide_true (Some "\"%char = Some "\"%char)) by done.
        rewrite orb_true_r. apply IH1. intros c r' _.
        rewrite (bool_decide_false (Some "n"%char = Some "\"%char)) by done.
        by rewrite andb_false_r.
      * rewrite (bool_decide_false (b = "n"%char)) by done.
        rewrite (bool_decide_false (Some b = Some "n"%char)) by congruence.
        f_equal. apply IH2. intros c r' [= <- <-].
        by rewrite (bool_decide_false (b = "n"%char)).
    + rewrite (bool_decide_false (a = "\"%char)) by done. cbn [andb]. f_equal.
      apply IH2. intros c r' _.
      rewrite (bool_decide_false (Some a = Some "\"%char)) by congruence.
      by rewrite andb_false_r.
Qed.

Lemma sub_backslash_n_spec (s : str) : Re.sub_backslash_n s = without_backslash_n s.
Proof. apply sub_backslash_n_spec_from. intros c r _. by rewrite andb_false_r. Qed.

(** The three deletions on a line that has something for each of them. *)
Example deletions_sample :
  without_quotes_before_colon "a':b:'c\\nd" = "a:b:'c\\nd"
  ∧ without_quotes_after_colon "a:b:'c\\nd" = "a:b:c\\nd"
  ∧ without_backslash_n "a:b:c\\nd" = "a:b:c\d".
Proof. by vm_compute. Qed.

(** Each stage leaves one result only. *)
Lemma stripped_of_strip (s t : str) : stripped_of s t → t = strip s.
Proof.
  intros (ws1 & ws2 & -> & Hb1 & Hb2 & Hfirst & Hlast).
  destruct t as [|c r].
  - symmetry. apply strip_nil_iff. cbn [app]. by apply blank_app.
  - symmetry. apply strip_blank_app; [done..| |].
    + apply lstrip_cons. by apply (Hfirst c r).
    + destruct (reverse (c :: r)) as [|l r'] eqn:Hr.
      { apply (f_equal reverse) in Hr. by rewrite reverse_involutive in Hr. }
      assert (c :: r = reverse r' ++ [l]) as Hcr.
      { apply (f_equal reverse) in Hr. by rewrite reverse_involutive, reverse_cons in Hr. }
      unfold rstrip. rewrite Hr, lstrip_cons by (by apply (Hlast (reverse r') l)).
      by rewrite reverse_cons.
Qed.

Lemma without_marker_sub (s t : str) : without_marker s t → t = Re.sub_list_marker s.
Proof.
  intros [(m & ws & Hm & Hws & Hne & -> & Hfirst)|[-> Hnone]].
  - symmetry. apply sub_list_marker_list_marker; [done..|].
    destruct t as [|c r]; [done|]. apply lstrip_cons. by apply (Hfirst c r).
  - destruct (sub_list_marker_spec s) as [(m & ws & Hm & Hws & Hne & Hs & _)|[-> _]]; [|done].
    destruct Hnone. by exists m, ws, (Re.sub_list_marker s).
Qed.

Lemma without_initial_quote_sub (s t : str) :
  without_initial_quote s t → t = Re.sub_initial_quote s.
Proof.
  intros [(q & Hq & ->)|[-> Hnone]].
  - simpl. by rewrite Hq.
  - destruct s as [|c r]; [done|]. simpl. by rewrite (Hnone c r).
Qed.

Lemma without_trailing_quote_functional (s t t' : str) :
  without_trailing_quote s t → without_trailing_quote s t' → t = t'.
Proof.
  intros [(q & Hq & Hs)|[-> Hnone]] [(q' & Hq' & Hs')|[-> Hnone']]; [| | |done].
  - rewrite Hs in Hs'. by apply app_inj_tail in Hs' as [-> _].
  - rewrite (Hnone' t q Hs) in Hq. done.
  - rewrite (Hnone t' q' Hs') in Hq'. done.
Qed.

(** The line after the first three stages does not end with white space. *)
Lemma before_trailing_quote (message : str) (c : ascii) (r : str) :
  reverse (Re.sub_initial_quote (Re.sub_list_marker (strip message))) = c :: r →
  is_space c = false.
Proof.
  intros Hr.
  assert (Re.sub_initial_quote (Re.sub_list_marker (strip message))
            `suffix_of` strip message) as [k Hk]
    by (etrans; [apply sub_initial_quote_suffix|apply sub_list_marker_suffix]).
  apply (stripped_last (strip message) c (r ++ reverse k) (strip_stripped message)).
  by rewrite Hk, reverse_app, Hr.
Qed.

(** The stages of [normalize_message_filter], one after the other: the
    function returns what they leave, and nothing else is what they leave. *)
Lemma normalize_message_filter_stages (line message : str) :
  normalize_message_filter line = message
  ↔ ∃ a b c d : str,
      stripped_of line a
      ∧ without_marker a b
      ∧ without_initial_quote b c
      ∧ without_trailing_quote c d
      ∧ stripped_of
          (without_backslash_n (without_quotes_after_colon (without_quotes_before_colon d)))
          message.
Proof.
  split.
  - intros <-.
    exists (strip line), (Re.sub_list_marker (strip line)),
      (Re.sub_initial_quote (Re.sub_list_marker (strip line))),
      (Re.sub_trailing_quote (Re.sub_initial_quote (Re.sub_list_marker (strip line)))).
    split; [apply strip_spec|]. split; [apply sub_list_marker_spec|].
    split; [apply sub_initial_quote_spec|]. split.
    + apply sub_trailing_quote_spec, before_trailing_quote.
    + rewrite <- sub_quote_colon_spec, <- sub_colon_quote_spec, <- sub_backslash_n_spec.
      apply strip_spec.
  - intros (a & b & c & d & Ha & Hb & Hc & Hd & Hmessage).
    apply stripped_of_strip in Ha as ->. apply without_marker_sub in Hb as ->.
    apply without_initial_quote_sub in Hc as ->.
    assert (d = Re.sub_trailing_quote
                  (Re.sub_initial_quote (Re.sub_list_marker (strip line)))) as ->.
    { eapply without_trailing_quote_functional; [exact Hd|].
      apply sub_trailing_quote_spec, before_trailing_quote. }
    apply stripped_of_strip in Hmessage as ->.
    by rewrite <- sub_quote_colon_spec, <- sub_colon_quote_spec, <- sub_backslash_n_spec.
Qed.

(** C1, amended.  The suggestion list consists of the lines of the response
    after the first one that are longer than one character, in their order,
    each one normalized; the lines are the pieces between the line feeds of
    the response.  Normalizing a line takes away, in this order: the white
    space around it; the list marker (digits and a dot, a dash or a star)
    that it starts with, if white space follows the marker, with that white
    space; the quote that it then starts with; the quote that it then ends
    with; every quote that stands before a colon; every quote that then
    stands after a colon; every backslash with the letter n after it, and
    that letter; and the white space around what is left.  The normalized
    line is what these steps leave, and nothing else. *)
Theorem C1_normalize_messages (content : str) :
  normalize_messages content
  = normalize_message_filter <$> (filter (λ line, 1 < length line) (drop 1 (split content [LF])))
  ∧ join [LF] (split content [LF]) = content
  ∧ Forall (λ line, LF ∉ line) (split content [LF])
  ∧ Forall (λ message, strip message = message) (normalize_messages content)
  ∧ ∀ line message : str,
      normalize_message_filter line = message
      ↔ ∃ a b c d : str,
          stripped_of line a
          ∧ without_marker a b
          ∧ without_initial_quote b c
          ∧ without_trailing_quote c d
          ∧ stripped_of
              (without_backslash_n
                 (without_quotes_after_colon (without_quotes_before_colon d)))
              message.
Proof.
  split; [apply normalize_messages_list|].
  split; [by apply join_split|]. split; [apply split_pieces|]. split.
  - rewrite normalize_messages_list. apply Forall_fmap, Forall_forall. intros line _.
    apply normalize_message_filter_stripped.
  - apply normalize_message_filter_stages.
Qed.

(** ** More on [split] *)

Lemma hd_split_char (sep : str) (c : ascii) (s : str) :
  startswith (c :: s) sep = false →
  hd [] (split (c :: s) sep) = c :: hd [] (split s sep).
Proof. intros Hs. by rewrite split_char. Qed.

(** A text that holds nothing of the separator's first character is passed
    over. *)
Lemma hd_split_app (p s sep : str) (a : ascii) :
  head sep = Some a → a ∉ p →
  hd [] (split (p ++ s) sep) = p ++ hd [] (split s sep).
Proof.
  destruct sep as [|a' sep]; intros [= ->]. 
  induction p as [|c p IH]; intros Ha; [done|].
  apply not_elem_of_cons in Ha as [Hc Ha]. simpl.
  rewrite hd_split_char; [by rewrite IH|].
  simpl. rewrite bool_decide_false; [done|]. by intros ->.
Qed.

Lemma not_occurs_nil (sep : str) : sep ≠ [] → ¬ occurs sep [].
Proof.
  intros Hsep (a & b & Hab). symmetry in Hab.
  apply app_eq_nil in Hab as [_ [? _]%app_eq_nil]. done.
Qed.

(** [split] returns one piece when the separator does not occur, and more
    than one when it does. *)
Lemma split_length (s sep : str) :
  sep ≠ [] →
  (occurs sep s ∧ 1 < length (split s sep)) ∨ (¬ occurs sep s ∧ split s sep = [s]).
Proof.
  intros Hsep. induction s as [|c s IH].
  - right. split; [by apply not_occurs_nil|done].
  - destruct (startswith (c :: s) sep) eqn:Hs.
    + left. pose proof Hs as [rest Hrest]%startswith_spec. split.
      * by exists [], rest.
      * rewrite Hrest, split_sep by done.
        pose proof (split_not_nil rest sep). destruct (split rest sep); [done|simpl; lia].
    + rewrite split_char by done.
      pose proof (split_not_nil s sep) as Hne.
      assert (∀ b, c :: s ≠ sep ++ b) as Hnot.
      { intros b Hb. assert (startswith (c :: s) sep = true) as Ht
          by (apply startswith_spec; eauto). congruence. }
      destruct IH as [[(a & b & Hab) Hlen]|[Hno Hone]].
      * left. split; [exists (c :: a), b; by rewrite Hab|].
        destruct (split s sep); [done|exact Hlen].
      * right. split; [|by rewrite Hone].
        intros ([|x a] & b & Hab); [by destruct (Hnot b)|].
        injection Hab as -> Hab. apply Hno. by exists a, b.
Qed.

(** ** [repr] *)

Example repr_samples :
  repr <$> ["abc" : str; "it's" : str; "a\b" : str; "a" ++ [LF] ++ "b"]
  = ["'abc'" : str; "034"%char :: "it's" ++ ["034"%char]; "'a\\b'" : str; "'a\nb'" : str]
  ∧ repr_list ["TASK_PREFIX" : str; "x" : str] = "['TASK_PREFIX', 'x']"
  ∧ repr_list [] = "[]".
Proof. by vm_compute. Qed.

Lemma repr_char_plain (quote c : ascii) :
  plain_for quote c = true → repr_char quote c = [c].
Proof.
  unfold plain_for, repr_char.
  intros [[Hp ->%negb_true_iff]%andb_true_iff ->%negb_true_iff]%andb_true_iff.
  cbn [orb]. rewrite Hp.
  assert (is_char "009" c = false ∧ is_char LF c = false ∧ is_char "013" c = false)
    as (-> & -> & ->); [|done].
  unfold is_char. repeat split; apply bool_decide_eq_false; intros ->; discriminate Hp.
Qed.

Lemma repr_chars_plain (quote : ascii) (p s : str) :
  forallb (plain_for quote) p = true →
  concat (repr_char quote <$> (p ++ s)) = p ++ concat (repr_char quote <$> s).
Proof.
  induction p as [|c p IH]; [done|]. cbn [forallb].
  intros [Hc Hp]%andb_true_iff.
  cbn [app]. rewrite fmap_cons. cbn [concat].
  by rewrite repr_char_plain, IH.
Qed.

(** ** [add_prefix_if_needed] *)

Lemma add_prefix_if_needed_run (W : World) (commit_message : str) (h : list event) :
  let r := git_branch W (h ++ [Enter F_get_current_branch]) in
  add_prefix_if_needed W commit_message h =
    (match r with
     | Ret output =>
         Ret (if startswith (strip output) TASK_PREFIX
              then if 1 <? length (split (strip output) "--")
                   then repr_list (split (hd [] (split (strip output) "--")) "/")
                          ++ ": " ++ commit_message
                   else commit_message
              else commit_message)
     | Raise e => if is_CalledProcessError e then Ret commit_message else Raise e
     end, [Enter F_get_current_branch; GitBranch r]).
Proof.
  unfold add_prefix_if_needed, get_current_branch. run.
  destruct (git_branch W _) as [output|e].
  - destruct (startswith _ _); [|done]. by destruct (_ <? _).
  - by destruct (is_CalledProcessError e).
Qed.

Lemma feature_is_not_TASK_PREFIX (branch_name : str) :
  startswith branch_name "feature/IOS-" = true → startswith branch_name TASK_PREFIX = false.
Proof.
  intros [rest ->]%startswith_spec. reflexivity.
Qed.

Lemma repr_list_TASK_PREFIX (x : str) (pieces : list str) :
  ∃ q rest, is_quote q = true
    ∧ repr_list ((TASK_PREFIX ++ x) :: pieces) = ("[" ++ q :: TASK_PREFIX ++ rest) ++ "]".
Proof.
  unfold repr_list. rewrite fmap_cons.
  set (quote := if bool_decide ("'"%char ∈ TASK_PREFIX ++ x)
                     && negb (bool_decide ("034"%char ∈ TASK_PREFIX ++ x))
                then "034"%char else "'"%char).
  assert (repr (TASK_PREFIX ++ x)
          = quote :: TASK_PREFIX ++ concat (repr_char quote <$> x) ++ [quote]) as Hrepr.
  { unfold repr. fold quote. cbv zeta. f_equal.
    rewrite repr_chars_plain, <- app_assoc; [done|].
    subst quote. by destruct (_ && _). }
  assert (is_quote quote = true) as Hq by (subst quote; by destruct (_ && _)).
  assert (∃ t, join ", " (repr (TASK_PREFIX ++ x) :: (repr <$> pieces))
               = repr (TASK_PREFIX ++ x) ++ t) as [t Ht].
  { destruct pieces as [|p ps]; [exists []; simpl; by rewrite app_nil_r|].
    eexists. by rewrite join_cons. }
  exists quote, ((concat (repr_char quote <$> x) ++ [quote]) ++ t).
  split; [done|]. rewrite Ht, Hrepr.
  cbn [app]. rewrite <- !app_assoc. cbn [app]. by rewrite <- !app_assoc.
Qed.

Lemma split_hd_tail (s sep : str) :
  split s sep = hd [] (split s sep) :: tail (split s sep).
Proof. pose proof (split_not_nil s sep). by destruct (split s sep). Qed.

Lemma dash_not_in_TASK_PREFIX : ("-"%char ∉ TASK_PREFIX) ∧ ("/"%char ∉ TASK_PREFIX).
Proof. split; apply (bool_decide_unpack _); by vm_compute. Qed.

(** X7.  [add_prefix_if_needed] tests the branch name against the text
    [TASK_PREFIX], the name of the configuration key, and writes the list of
    the segments of the branch name, not a segment.  So: on a branch whose
    name starts with [TASK_PREFIX] and holds a double dash, the message comes
    back behind the [repr] of the list of segments (between slashes) of what
    precedes the first double dash, which starts with a bracket and a quote,
    and a colon and a space; on every other branch, the branches
    [feature/IOS-...] among them, and when git fails with
    [CalledProcessError], the message comes back as it was given. *)
Theorem add_prefix_if_needed_spec (W : World) (commit_message : str) (h : list event)
    (r : outcome str) :
  GitBranch r ∈ (add_prefix_if_needed W commit_message h).2 →
  match r with
  | Ret output =>
      let branch_name := strip output in
      (startswith branch_name TASK_PREFIX = true → occurs "--" branch_name →
       ∃ (head : str) (q : ascii) (rest : str),
         before_first "--" branch_name head
         ∧ is_quote q = true
         ∧ repr_list (split head "/") = ("[" ++ q :: TASK_PREFIX ++ rest) ++ "]"
         ∧ (add_prefix_if_needed W commit_message h).1
           = Ret (repr_list (split head "/") ++ ": " ++ commit_message))
      ∧ (startswith branch_name TASK_PREFIX = false ∨ ¬ occurs "--" branch_name →
         (add_prefix_if_needed W commit_message h).1 = Ret commit_message)
      ∧ (startswith branch_name "feature/IOS-" = true →
         (add_prefix_if_needed W commit_message h).1 = Ret commit_message)
  | Raise e =>
      (add_prefix_if_needed W commit_message h).1
      = if is_CalledProcessError e then Ret commit_message else Raise e
  end.
Proof.
  rewrite add_prefix_if_needed_run. cbn [fst snd].
  rewrite !elem_of_cons, elem_of_nil. intros [?|[[= <-]|[]]]; [done|].
  destruct r as [output|e]; [|done]. cbv zeta.
  destruct (split_length (strip output) "--" ltac:(done)) as [[Ho Hlen]|[Hno Hone]].
  - apply Nat.ltb_lt in Hlen. rewrite Hlen. split; [|split].
    + intros Hs _. rewrite Hs. pose proof Hs as [rest0 Hrest0]%startswith_spec.
      destruct dash_not_in_TASK_PREFIX as [Hdash Hslash].
      exists (hd [] (split (strip output) "--")).
      destruct (repr_list_TASK_PREFIX
                  (hd [] (split (hd [] (split rest0 "--")) "/"))
                  (tail (split (hd [] (split (strip output) "--")) "/")))
        as (q & rest & Hq & Hrepr).
      exists q, rest. split; [by apply hd_split_before_first|]. split; [done|].
      split; [|done].
      rewrite <- Hrepr. f_equal. rewrite (split_hd_tail _ "/"). f_equal.
      rewrite Hrest0.
      by rewrite (hd_split_app _ _ "--" "-"), (hd_split_app _ _ "/" "/").
    + intros [Hs|Hno]; [by rewrite Hs|done].
    + intros Hf. by rewrite (feature_is_not_TASK_PREFIX _ Hf).
  - rewrite Hone. cbn [length Nat.ltb Nat.leb]. split; [|split].
    + intros _ Ho. done.
    + intros _. by destruct (startswith _ _).
    + intros _. by destruct (startswith _ _).
Qed.

(** On the branch [TASK_PREFIX/x--y]. *)
Lemma add_prefix_if_needed_spec_witness :
  let W := Sample.on_branch "TASK_PREFIX/x--y" in
  GitBranch (Ret ("TASK_PREFIX/x--y" ++ [LF])) ∈ (add_prefix_if_needed W "Add tests" []).2
  ∧ ∃ (head : str) (q : ascii) (rest : str),
      before_first "--" "TASK_PREFIX/x--y" head
      ∧ is_quote q = true
      ∧ repr_list (split head "/") = ("[" ++ q :: TASK_PREFIX ++ rest) ++ "]"
      ∧ (add_prefix_if_needed W "Add tests" []).1
        = Ret (repr_list (split head "/") ++ ": " ++ "Add tests").
Proof.
  intros W.
  assert (GitBranch (Ret ("TASK_PREFIX/x--y" ++ [LF]))
            ∈ (add_prefix_if_needed W "Add tests" []).2) as H.
  { vm_compute. apply list_elem_of_further, list_elem_of_here. }
  split; [exact H|].
  destruct (add_prefix_if_needed_spec W "Add tests" [] _ H) as [Hspec _].
  apply Hspec; [reflexivity|]. by exists ("TASK_PREFIX/x" : str), ("y" : str).
Defined.

(** What the function returns on that branch. *)
Example add_prefix_if_needed_sample :
  (add_prefix_if_needed (Sample.on_branch "TASK_PREFIX/x--y") "Add tests" []).1
  = Ret ("['TASK_PREFIX', 'x']: Add tests" : str).
Proof. reflexivity. Qed.

(** ** Branch names of the convention *)

(** The task identifier of [feature/IOS-<number>] and of
    [feature/IOS-<number>--<description>]. *)
Lemma task_id_of_convention (number rest : str) :
  number ≠ [] → "-"%char ∉ number → "/"%char ∉ number →
  rest = [] ∨ startswith rest "--" = true →
  List.last (split (hd [] (split ("feature/IOS-" ++ number ++ rest) "--")) "/") []
  = "IOS-" ++ number.
Proof.
  intros Hne Hdash Hslash Hrest.
  assert (hd [] (split rest "--") = []) as Hhd.
  { destruct Hrest as [->|[description ->]%startswith_spec]; [done|].
    by rewrite split_sep. }
  assert (hd [] (split ("feature/IOS-" ++ number ++ rest) "--") = "feature/IOS-" ++ number)
    as ->.
  { change ("feature/IOS-" ++ number ++ rest)
      with ("feature/IOS" ++ "-"%char :: number ++ rest).
    rewrite (hd_split_app "feature/IOS" _ "--" "-");
      [|done|apply (bool_decide_unpack _); by vm_compute].
    destruct number as [|n number]; [done|].
    pose proof Hdash as [Hn _]%not_elem_of_cons.
    rewrite hd_split_char.
    - rewrite (hd_split_app (n :: number) _ "--" "-") by done.
      by rewrite Hhd, app_nil_r.
    - simpl. rewrite (bool_decide_false (n = "-"%char)); done. }
  change ("feature/IOS-" ++ number) with ("feature" ++ "/"%char :: "IOS-" ++ number).
  rewrite (split_app_sep "feature" _ "/") by (apply (bool_decide_unpack _); by vm_compute).
  rewrite split_no_sep; [done|].
  rewrite elem_of_app. intros [Hin|Hin]; [|done].
  revert Hin. apply (bool_decide_unpack _). by vm_compute.
Qed.

(** X8.  On a branch named [feature/IOS-<number>], or that followed by a
    double dash and a description, where the number is not empty and holds
    neither dash nor slash, the prefix is [IOS-<number>], a colon and a space:
    for an own message, and for the suggestions. *)
Theorem prefix_of_convention (W : World) (output number rest : str) :
  strip output = "feature/IOS-" ++ number ++ rest →
  number ≠ [] → "-"%char ∉ number → "/"%char ∉ number →
  rest = [] ∨ startswith rest "--" = true →
  (∀ h, GitBranch (Ret output) ∈ (get_prefix_name W h).2 →
        (get_prefix_name W h).1 = Ret ("IOS-" ++ number ++ ": "))
  ∧ (∀ suggestions h,
       GitBranch (Ret output) ∈ (add_prefix_to_suggestions W suggestions h).2 →
       (add_prefix_to_suggestions W suggestions h).1
       = Ret ((λ s, ("IOS-" ++ number ++ ": ") ++ strip s)
                <$> filter (λ s, ¬ blank s) suggestions)).
Proof.
  intros Hout Hne Hdash Hslash Hrest.
  pose proof (task_id_of_convention number rest Hne Hdash Hslash Hrest) as Hid.
  assert (startswith (strip output) "feature/IOS-" = true) as Hs
    by (apply startswith_spec; rewrite Hout; eauto).
  split.
  - intros h. rewrite get_prefix_name_run. cbn [fst snd].
    rewrite !elem_of_cons, elem_of_nil. intros [?|[[= <-]|[]]]; [done|].
    by rewrite Hs, Hout, Hid, <- app_assoc.
  - intros suggestions h. rewrite add_prefix_to_suggestions_run. cbn [fst snd].
    rewrite !elem_of_cons, elem_of_nil. intros [?|[[= <-]|[]]]; [done|].
    by rewrite Hs, Hout, Hid, prefix_comprehension, <- app_assoc.
Qed.

Lemma prefix_of_convention_witness :
  (get_prefix_name Sample.happy []).1 = Ret ("IOS-42: " : str)
  ∧ (add_prefix_to_suggestions Sample.happy ["Add tests " : str; " " : str] []).1
    = Ret ["IOS-42: Add tests" : str].
Proof.
  destruct (prefix_of_convention Sample.happy ("feature/IOS-42--login" ++ [LF]) "42" "--login")
    as [Hown Hsuggestions].
  - reflexivity.
  - done.
  - apply (bool_decide_unpack _). by vm_compute.
  - apply (bool_decide_unpack _). by vm_compute.
  - right. reflexivity.
  - split.
    + apply Hown. vm_compute. apply list_elem_of_further, list_elem_of_here.
    + rewrite Hsuggestions; [reflexivity|].
      vm_compute. apply list_elem_of_further, list_elem_of_here.
Defined.

(** Without a number the first dash of the double dash is taken for the
    one of [IOS-]. *)
Example prefix_without_number :
  (get_prefix_name (Sample.on_branch "feature/IOS---login") []).1
  = Ret ("IOS: " : str).
Proof. reflexivity. Qed.

(** ** An own message *)

Lemma create_custom_commit_message_run (W : World) (h : list event) :
  let a := input W h "Enter your commit message: " in
  create_custom_commit_message W h =
    match a with
    | Ret typed =>
        let r := git_branch W (h ++ [Input "Enter your commit message: " a;
                                     Enter F_get_prefix_name; Enter F_get_current_branch]) in
        (match r with
         | Ret output =>
             Ret ((if startswith (strip output) "feature/IOS-"
                   then List.last (split (hd [] (split (strip output) "--")) "/") [] ++ ": "
                   else []) ++ typed)
         | Raise e => if is_CalledProcessError e then Ret typed else Raise e
         end,
         [Input "Enter your commit message: " a; Enter F_get_prefix_name;
          Enter F_get_current_branch; GitBranch r])
    | Raise e => (Raise e, [Input "Enter your commit message: " a])
    end.
Proof.
  unfold create_custom_commit_message.
  cbv [mbind M_bind mret M_ret bind ret raise lift try ask call].
  destruct (input W h _) as [typed|e]; [|done].
  rewrite get_prefix_name_run. cbv zeta. rewrite <- !app_assoc. cbn [app].
  destruct (git_branch W _) as [output|e]; [done|].
  by destruct (is_CalledProcessError e).
Qed.

(** X9.  An own message is committed as it was typed, not stripped and not
    looked at, behind the prefix of the branch: on a branch whose name starts
    with [feature/IOS-] behind the task identifier, a colon and a space, on
    any other branch, and when git fails with [CalledProcessError], with
    nothing before it.  When the message cannot be read, git is not asked for
    the branch. *)
Theorem create_custom_commit_message_spec (W : World) (h : list event) :
  match (create_custom_commit_message W h).2 with
  | [Input prompt (Ret typed); Enter F_get_prefix_name; Enter F_get_current_branch;
     GitBranch r] =>
      prompt = "Enter your commit message: "
      ∧ match r with
        | Ret output =>
            if startswith (strip output) "feature/IOS-" then
              ∃ task_id, is_task_id (strip output) task_id
                ∧ (create_custom_commit_message W h).1 = Ret ((task_id ++ ": ") ++ typed)
            else (create_custom_commit_message W h).1 = Ret typed
        | Raise e =>
            (create_custom_commit_message W h).1
            = if is_CalledProcessError e then Ret typed else Raise e
        end
  | [Input prompt (Raise e)] =>
      prompt = "Enter your commit message: "
      ∧ (create_custom_commit_message W h).1 = Raise e
  | _ => False
  end.
Proof.
  rewrite create_custom_commit_message_run. cbv zeta.
  destruct (input W h _) as [typed|e]; cbn [fst snd]; [|done].
  split; [done|]. destruct (git_branch W _) as [output|e]; [|done].
  destruct (startswith _ _); [|done].
  eexists. split; [apply task_id_spec|done].
Qed.

(** ** The two prefixes *)

(** X10.  The suggestions and an own message get the same prefix: when git
    gives the same answer to both lookups, the prefixer returns the
    suggestions as they are if [get_prefix_name] returns the empty prefix, and
    otherwise the suggestions that are not blank, stripped, behind the prefix
    that [get_prefix_name] returns; it raises what [get_prefix_name] raises. *)
Theorem prefix_agreement (W : World) (suggestions : list str) (h h' : list event) :
  git_branch W (h ++ [Enter F_get_current_branch])
  = git_branch W (h' ++ [Enter F_get_current_branch]) →
  (add_prefix_to_suggestions W suggestions h).1
  = match (get_prefix_name W h').1 with
    | Ret prefix =>
        Ret (if bool_decide (prefix = [])
             then suggestions
             else (λ s, prefix ++ strip s) <$> filter (λ s, ¬ blank s) suggestions)
    | Raise e => Raise e
    end.
Proof.
  intros Hsame. rewrite add_prefix_to_suggestions_run, get_prefix_name_run.
  cbv zeta. cbn [fst]. rewrite Hsame.
  destruct (git_branch W (h' ++ _)) as [output|[]]; try done.
  destruct (startswith (strip output) _); [|done].
  rewrite bool_decide_false by (by intros [_ ?]%app_eq_nil).
  by rewrite prefix_comprehension.
Qed.

Lemma prefix_agreement_witness :
  (add_prefix_to_suggestions Sample.happy ["Add tests " : str; " " : str] []).1
  = Ret ["IOS-42: Add tests" : str]
  ∧ (get_prefix_name Sample.happy [Enter F_create_custom_commit_message]).1
    = Ret ("IOS-42: " : str).
Proof.
  split; [|reflexivity].
  rewrite (prefix_agreement Sample.happy _ [] [Enter F_create_custom_commit_message]);
    reflexivity.
Defined.

(** ** The content of a reply *)

(** X11.  Where the reply has the path ['choices'][0]['message']['content'],
    the suggestions are the normalized lines of the content when the content
    is a string, and there are none when it is anything else.  The status of
    the reply and the choices after the first are not looked at. *)
Theorem process_response_content (r : response) (body choice message : gmap str json)
    (rest : list json) (content : json) :
  response_body r = Some (JObj body) →
  body !! ("choices" : str) = Some (JArr (JObj choice :: rest)) →
  choice !! ("message" : str) = Some (JObj message) →
  message !! ("content" : str) = Some content →
  process_response (Some r)
  = Ret (match content with JStr s => normalize_messages s | _ => [] end).
Proof.
  intros Hbody Hchoices Hmessage Hcontent.
  unfold process_response, content_of, response_json.
  rewrite Hbody. cbn [obind getitem]. rewrite Hchoices.
  cbn [obind getindex lookup list_lookup]. cbn [obind getitem]. rewrite Hmessage.
  cbn [obind getitem]. rewrite Hcontent.
  by destruct content.
Qed.

Lemma process_response_content_witness :
  process_response (Some Sample.reply)
  = Ret ["Fix login crash" : str; "Add tests" : str; "" : str].
Proof.
  rewrite (process_response_content Sample.reply
    (<["choices" : str :=
         JArr [JObj (<["message" : str :=
                        JObj (<["content" : str := JStr Sample.content]> ∅)]> ∅)]]> ∅)
    (<["message" : str := JObj (<["content" : str := JStr Sample.content]> ∅)]> ∅)
    (<["content" : str := JStr Sample.content]> ∅) [] (JStr Sample.content));
    reflexivity.
Defined.

(** ** The request *)

(** X12.  [send_request_to_openai] returns a response exactly when key and URL
    are configured and the request comes back with a status that is no error
    status and a JSON body; it raises exactly when the key is missing, what
    the lookup of the key raises; it sends one request when key and URL are
    configured and none otherwise: a missing URL gives [None]. *)
Theorem send_request_to_openai_result (W : World) (data config : json) (h : list event) :
  (∀ r, (send_request_to_openai W data config h).1 = Ret (Some r) ↔
        ∃ url key,
          getitem config OPENAI_API_URL = Ret url
          ∧ getitem config OPENAI_API_KEY = Ret key
          ∧ post W h url key (json_dumps W data) = Ret r
          ∧ ¬ (400 ≤ status_code r < 600)
          ∧ is_Some (response_body r))
  ∧ (∀ e, (send_request_to_openai W data config h).1 = Raise e ↔
          getitem config OPENAI_API_KEY = Raise e)
  ∧ (send_request_to_openai W data config h).2
    = match getitem config OPENAI_API_KEY, getitem config OPENAI_API_URL with
      | Ret key, Ret url =>
          [Post url key (json_dumps W data) (post W h url key (json_dumps W data))]
      | _, _ => []
      end.
Proof.
  rewrite send_request_to_openai_run. unfold reply_ok.
  destruct (getitem config OPENAI_API_KEY) as [key|e0];
    [destruct (getitem config OPENAI_API_URL) as [url|e1];
       [destruct (post W h url key _) as [r'|e'] eqn:Hpost|]|];
    cbn [fst snd]; (split; [|split; [|done]]).
  all: try (intros e; split; intros; simplify_eq; done).
  all: intros r; repeat case_bool_decide; cbn [negb andb].
  all: split;
    [ intros; simplify_eq; eauto 10
    | intros (? & ? & ? & ? & ? & ? & ?); simplify_eq;
      try match goal with
          | H1 : ?a = _, H2 : ?a = Ret _ |- _ => rewrite H1 in H2; simplify_eq
          end; done ].
Qed.

(** ** The script as a program *)

Lemma main_raise (W : World) (h : list event) (e : exn) (t : list event) :
  main W h = (Raise e, t) → is_KeyboardInterrupt e = false.
Proof.
  unfold main, try.
  match goal with |- context [match ?m with _ => _ end] => destruct m as [[[]|e'] t'] end;
    [done|].
  destruct (is_KeyboardInterrupt e') eqn:He; cbv [mret M_ret ret raise]; [done|].
  by intros [= <- _].
Qed.

(** X13.  Once the command line is parsed and logging is configured, the
    script run as a program ends without an exception, whatever the outside
    calls do: [main] returns after a [KeyboardInterrupt], and any other
    exception that it raises is logged and dropped.  The calls of the run are
    those of [main]. *)
Theorem script_ends_normally (W : World) (h : list event) :
  (script W h).1 = Ret () ∧ (script W h).2 = (main W h).2.
Proof.
  unfold script, try. destruct (main W h) as [[[]|e] t] eqn:Hmain; [done|].
  apply main_raise in Hmain. unfold is_Exception. rewrite Hmain.
  cbv [negb mret M_ret ret fst snd]. by rewrite app_nil_r.
Qed.

(** ** A configuration that cannot be loaded *)

Lemma getitem_Raise_cases (v : json) (k : str) (e : exn) :
  getitem v k = Raise e → e = KeyError ∨ e = TypeError.
Proof. unfold getitem. repeat case_match; intros [= <-]; auto. Qed.

Lemma setitem_Raise_cases (v : json) (k : str) (x : json) (e : exn) :
  setitem v k x = Raise e → e = KeyError ∨ e = TypeError.
Proof. unfold setitem. repeat case_match; intros [= <-]; auto. Qed.

(** X14.  When [load_config] raises, it raises what its last call (reading the
    file, asking the user, writing the file) raised, or the [KeyError] or
    [TypeError] of a configuration that is no object or lacks the key or the
    task prefix; the configuration file has not been rewritten then. *)
Theorem load_config_failure (W : World) (h : list event) (e : exn) (t : list event) :
  load_config W h = (Raise e, t) →
  (∀ written, WriteConfig written (Ret ()) ∉ t)
  ∧ ((∃ ev, last t = Some ev ∧ raised ev = Some e) ∨ e = KeyError ∨ e = TypeError).
Proof.
  cbv [load_config mbind M_bind mret M_ret bind ret raise lift try ask call].
  explore; cbn [app]; intros [= <- <-].
  all: split; [intros written Hin; explicit_in Hin|].
  all: first
    [ left; eexists; split; reflexivity
    | right; eapply getitem_Raise_cases; eassumption
    | right; eapply setitem_Raise_cases; eassumption ].
Qed.

(** A configuration without the task prefix, after the key was typed. *)
Lemma load_config_failure_witness :
  let W := Sample.no_prefix in
  load_config W []
  = (Raise KeyError,
     [ReadConfig (Ret (JObj (<[OPENAI_API_KEY := JStr YOUR_TOKEN_KEY]> ∅)));
      Input "Please enter your OpenAI API key: " (Sample.ok "sk-typed")])
  ∧ ∀ written, WriteConfig written (Ret ()) ∉ (load_config W []).2.
Proof.
  intros W.
  assert (load_config W []
    = (Raise KeyError,
       [ReadConfig (Ret (JObj (<[OPENAI_API_KEY := JStr YOUR_TOKEN_KEY]> ∅)));
        Input "Please enter your OpenAI API key: " (Sample.ok "sk-typed")])) as Hrun
    by (vm_compute; reflexivity).
  split; [exact Hrun|].
  rewrite Hrun. exact (proj1 (load_config_failure W [] _ _ Hrun)).
Defined.

(** ** The request that is built *)

(** X15.  When [prepare_request_data] returns, the configuration holds the git
    command, the template, the model and the temperature, and the request is
    an object of three entries: the model and the temperature of the
    configuration, and one message of the user, whose content is the template
    filled in with the git command (its words joined by spaces) and the diff. *)
Theorem prepare_request_data_spec (W : World) (diff : str) (config data : json) :
  prepare_request_data W diff config = Ret data →
  ∃ (cmd template model temperature : json) (git_command message_content : str)
    (d : gmap str json),
    getitem config GIT_COMMAND = Ret cmd
    ∧ getitem config MESSAGE_TEMPLATE = Ret template
    ∧ getitem config MODEL_NAME = Ret model
    ∧ getitem config TEMPERATURE = Ret temperature
    ∧ join_space W cmd = Ret git_command
    ∧ format W template git_command diff = Ret message_content
    ∧ data = JObj d
    ∧ dom d = {["model" : str; "messages" : str; "temperature" : str]}
    ∧ d !! ("model" : str) = Some model
    ∧ d !! ("temperature" : str) = Some temperature
    ∧ d !! ("messages" : str)
      = Some (JArr [JObj (<["role" : str := JStr "user"]>
                         (<["content" : str := JStr message_content]> ∅))]).
Proof.
  unfold prepare_request_data, obind.
  destruct (getitem config GIT_COMMAND) as [cmd|]; [|done].
  destruct (join_space W cmd) as [git_command|] eqn:Hjoin; [|done].
  destruct (getitem config MESSAGE_TEMPLATE) as [template|]; [|done].
  destruct (format W template git_command diff) as [message_content|] eqn:Hformat; [|done].
  destruct (getitem config MODEL_NAME) as [model|]; [|done].
  destruct (getitem config TEMPERATURE) as [temperature|]; [|done].
  intros [= <-]. eexists cmd, template, model, temperature, git_command, message_content, _.
  do 6 (split; [done|]). split; [reflexivity|].
  split; [by rewrite !dom_insert_L, dom_empty_L, (right_id_L ∅ (∪))|].
  split; [by rewrite lookup_insert_eq|].
  split; [by rewrite !lookup_insert_ne, lookup_insert_eq by done|].
  by rewrite lookup_insert_ne, lookup_insert_eq by done.
Qed.

Lemma prepare_request_data_spec_witness :
  ∃ (data : json) (d : gmap str json),
    prepare_request_data Sample.happy "diff --git a/x b/x" Sample.config = Ret data
    ∧ data = JObj d
    ∧ d !! ("model" : str) = Some (JStr "gpt-3.5-turbo")
    ∧ d !! ("messages" : str)
      = Some (JArr [JObj (<["role" : str := JStr "user"]>
                         (<["content" : str := JStr "diff --git a/x b/x"]> ∅))]).
Proof.
  destruct (prepare_request_data Sample.happy "diff --git a/x b/x" Sample.config)
    as [data|e] eqn:Hrun; [|by vm_compute in Hrun].
  destruct (prepare_request_data_spec _ _ _ _ Hrun)
    as (cmd & template & model & temperature & git_command & message_content & d
        & Hcmd & Htemplate & Hmodel & Htemperature & Hjoin & Hformat & -> & _
        & Hm & _ & Hmessages).
  exists (JObj d), d. split; [done|]. split; [done|].
  vm_compute in Hmodel. injection Hmodel as <-.
  vm_compute in Htemplate. injection Htemplate as <-.
  injection Hjoin as <-. injection Hformat as <-.
  by split.
Defined.

(** ** Whole runs *)

Lemma getitem_JObj (d : gmap str json) (k : str) (x : json) :
  getitem (JObj d) k = Ret x → d !! k = Some x.
Proof. intros (d' & [= <-] & Hk)%getitem_Ret. done. Qed.

Lemma load_config_keys (W : World) (h : list event) (config : json) (l : list event) :
  load_config W h = (Ret config, l) →
  ∃ d, config = JObj d ∧ is_Some (d !! OPENAI_API_KEY) ∧ is_Some (d !! TASK_PREFIX).
Proof.
  pose proof key_is_not_prefix as Hne.
  assert (TASK_PREFIX ≠ OPENAI_API_KEY) as Hne' by done.
  cbv [load_config mbind M_bind mret M_ret bind ret raise lift try ask call].
  explore; cbn [app]; intros [= <- <-].
  all: repeat match goal with
       | H : getitem _ _ = Ret _ |- _ => apply getitem_Ret in H as (? & ? & H)
       | H : ?v = JObj _ |- _ => first [subst v | injection H as <-]
       | H : setitem (JObj _) _ _ = Ret _ |- _ => injection H as <-
       end.
  all: rewrite ?lookup_insert_ne in * by done.
  all: eexists; split; [reflexivity|].
  all: split; lookups; by eexists.
Qed.

Lemma prepare_request_data_Ret (W : World) (diff : str) (config data : json) :
  prepare_request_data W diff config = Ret data →
  ∃ cmd template model temperature,
    getitem config GIT_COMMAND = Ret cmd
    ∧ getitem config MESSAGE_TEMPLATE = Ret template
    ∧ getitem config MODEL_NAME = Ret model
    ∧ getitem config TEMPERATURE = Ret temperature.
Proof.
  unfold prepare_request_data, obind.
  destruct (getitem config GIT_COMMAND) as [cmd|]; [|done].
  destruct (join_space W cmd) as [git_command|]; [|done].
  destruct (getitem config MESSAGE_TEMPLATE) as [template|]; [|done].
  destruct (format W template git_command diff) as [message_content|]; [|done].
  destruct (getitem config MODEL_NAME) as [model|]; [|done].
  destruct (getitem config TEMPERATURE) as [temperature|]; [|done].
  intros _. by eexists _, _, _, _.
Qed.

(** X16.  A request is sent only with a complete configuration: when a run
    posts a request, [load_config] has returned an object that holds all eight
    keys; the request goes to the URL and with the key of that object, and its
    body is the serialized request that [prepare_request_data] builds from the
    diff that git printed and that object. *)
Theorem request_needs_configuration (W : World) (url key : json) (body : str)
    (a : outcome response) :
  Post url key body a ∈ (main W []).2 →
  ∃ (config : gmap str json) (l : list event) (cmd : json) (diff : str) (data : json),
    load_config W [Enter F_load_config] = (Ret (JObj config), l)
    ∧ Forall (λ k, is_Some (config !! k)) config_keys
    ∧ config !! OPENAI_API_URL = Some url
    ∧ config !! OPENAI_API_KEY = Some key
    ∧ config !! GIT_COMMAND = Some cmd
    ∧ GitDiff cmd (Ret diff) ∈ (main W []).2
    ∧ prepare_request_data W diff (JObj config) = Ret data
    ∧ body = json_dumps W data.
Proof.
  pattern ((main W []).2).
  match goal with |- ?P ?t => set (Q := P) end.
  unfold_main. explore; leaf.
  all: subst Q; cbv beta.
  all: intros Hin; in_main Hin; simplify_eq.
  all: match goal with
       | H : load_config _ _ = (Ret _, _) |- _ =>
           pose proof (load_config_keys _ _ _ _ H) as (d & -> & Hkey & Hprefix)
       end.
  all: match goal with
       | H : prepare_request_data _ _ _ = Ret _ |- _ =>
           pose proof (prepare_request_data_Ret _ _ _ _ H)
             as (? & ? & ? & ? & ? & ? & ? & ?)
       end.
  all: repeat match goal with
       | H : getitem (JObj _) _ = Ret _ |- _ => apply getitem_JObj in H
       end.
  all: repeat match goal with
       | H1 : ?a = Some _, H2 : ?a = Some _ |- _ => rewrite H1 in H2; injection H2 as <-
       end.
  all: eexists _, _, _, _, _; split; [eassumption|].
  all: split;
    [ unfold config_keys;
      repeat (apply Forall_cons; split; [first [eassumption | eexists; eassumption]|]);
      by apply Forall_nil |].
  all: split; [eassumption|]; split; [eassumption|]; split; [eassumption|].
  all: split; [apply list_elem_of_further, elem_of_app; right; solve_in|].
  all: split; [eassumption|reflexivity].
Qed.

(** In the run in which everything succeeds. *)
Lemma request_needs_configuration_witness :
  let request := Post (JStr "https://api.openai.com/v1/chat/completions")
                      (JStr "sk-secret") "{...}" (Ret Sample.reply) in
  request ∈ (main Sample.happy []).2
  ∧ ∃ (config : gmap str json) (l : list event) (cmd : json) (diff : str) (data : json),
      load_config Sample.happy [Enter F_load_config] = (Ret (JObj config), l)
      ∧ Forall (λ k, is_Some (config !! k)) config_keys
      ∧ config !! OPENAI_API_URL = Some (JStr "https://api.openai.com/v1/chat/completions")
      ∧ config !! OPENAI_API_KEY = Some (JStr "sk-secret")
      ∧ config !! GIT_COMMAND = Some cmd
      ∧ GitDiff cmd (Ret diff) ∈ (main Sample.happy []).2
      ∧ prepare_request_data Sample.happy diff (JObj config) = Ret data
      ∧ ("{...}" : str) = json_dumps Sample.happy data.
Proof.
  intros request.
  assert (request ∈ (main Sample.happy []).2) as H by (vm_compute; solve_in).
  split; [exact H|].
  exact (request_needs_configuration Sample.happy _ _ _ _ H).
Defined.

(** ** The token check *)

(** X17.  Nothing is sent before the tokens of what is sent were counted: a
    request of [get_commit_suggestions] comes after the count, for the
    configured model, of the tokens of its very body; the configuration holds
    a limit that the count can be compared with, and when the count is above
    it, the request comes after the user's yes to the confirmation prompt. *)
Theorem request_after_token_check (W : World) (diff : str) (config : json) (h : list event)
    (url key : json) (body : str) (a : outcome response) :
  Post url key body a ∈ (get_commit_suggestions W diff config h).2 →
  ∃ (model limit : json) (n : nat) (over : bool),
    precedes (CountTokens model body (Ret n)) (Post url key body a)
             (get_commit_suggestions W diff config h).2
    ∧ getitem config MODEL_NAME = Ret model
    ∧ getitem config MAX_TOKEN_COUNT = Ret limit
    ∧ int_gt (Z.of_nat n) limit = Ret over
    ∧ (over = true →
       precedes (Confirm (Ret (Some true))) (Post url key body a)
                (get_commit_suggestions W diff config h).2).
Proof.
  pattern ((get_commit_suggestions W diff config h).2).
  match goal with |- ?P ?t => set (Q := P) end.
  unfold_suggestions.
  explore; subst Q; cbv beta; cbn [app fst snd]; rewrite <- ?app_assoc; cbn [app].
  all: intros Hin; explicit_in Hin; simplify_eq; confirmed.
  all: eexists _, _, _, _; split; [show_precedes|].
  all: split; [first [eassumption | reflexivity]|].
  all: split; [first [eassumption | reflexivity]|]; split; [eassumption|].
  all: intros Hover; first [discriminate Hover | show_precedes].
Qed.

(** In the run with a request above the limit that the user lets through. *)
Lemma request_after_token_check_witness :
  let t := (get_commit_suggestions Sample.large "diff --git a/x b/x" Sample.config []).2 in
  let request := Post (JStr "https://api.openai.com/v1/chat/completions")
                      (JStr "sk-secret") "{...}" (Ret Sample.reply) in
  request ∈ t
  ∧ ∃ (model limit : json) (n : nat) (over : bool),
      precedes (CountTokens model "{...}" (Ret n)) request t
      ∧ getitem Sample.config MODEL_NAME = Ret model
      ∧ getitem Sample.config MAX_TOKEN_COUNT = Ret limit
      ∧ int_gt (Z.of_nat n) limit = Ret over
      ∧ (over = true → precedes (Confirm (Ret (Some true))) request t).
Proof.
  intros t request.
  assert (request ∈ t) as H by (vm_compute; solve_in).
  split; [exact H|].
  exact (request_after_token_check Sample.large _ _ _ _ _ _ _ H).
Defined.

(** ** The prompt left without an answer *)

(** X18.  When the list prompt returns no answer, the run ends with a
    [KeyError] and nothing is committed. *)
Theorem prompt_without_answer (W : World) (choices : list str) :
  Choose choices (Ret None) ∈ (main W []).2 →
  (main W []).1 = Raise KeyError ∧ no_commit (main W []).2.
Proof.
  pattern (main W []).
  match goal with |- ?P ?t => set (Q := P) end.
  unfold_main. explore; leaf.
  all: subst Q; cbv beta; cbn [fst snd].
  all: intros Hin; in_main Hin; simplify_eq.
  all: split; [reflexivity|].
  all: match goal with
       | Hcfg : ∀ e, e ∈ _ → config_event e = true |- _ =>
           apply (no_commit_main _ _ Hcfg); reflexivity
       end.
Qed.

Lemma prompt_without_answer_witness :
  (main Sample.cancelled []).1 = Raise KeyError ∧ no_commit (main Sample.cancelled []).2.
Proof.
  apply (prompt_without_answer Sample.cancelled
           ["Fix login crash" : str; "Add tests" : str; "" : str;
            "Enter your own commit message" : str]).
  vm_compute. solve_in.
Defined.

(** ** What the user is offered *)

Lemma process_response_Some (r : response) (suggestions : list str) :
  process_response (Some r) = Ret suggestions → suggestions ≠ [] →
  ∃ content, content_of r = Ret (JStr content) ∧ suggestions = normalize_messages content.
Proof.
  unfold process_response. destruct (content_of r) as [content|e]; simpl.
  - destruct content; simpl; intros [= <-]; try done. eauto.
  - destruct (is_Exception e); intros [= <-]; done.
Qed.

(** X19.  The list prompt offers what the API suggested: its choices are the
    entry for an own message behind a list of suggestions that is not empty,
    and this list is made of the normalized lines of the content of the reply
    to the request of the run; on a branch whose name starts with
    [feature/IOS-], of those that are not blank, each stripped and behind the
    task identifier, a colon and a space. *)
Theorem choices_from_reply (W : World) (choices : list str) (a : outcome (option str)) :
  Choose choices a ∈ (main W []).2 →
  ∃ (url key : json) (body : str) (r : response) (content : str) (branch : outcome str)
    (suggestions : list str),
    Post url key body (Ret r) ∈ (main W []).2
    ∧ content_of r = Ret (JStr content)
    ∧ precedes (GitBranch branch) (Choose choices a) (main W []).2
    ∧ choices = suggestions ++ ["Enter your own commit message" : str]
    ∧ suggestions ≠ []
    ∧ match branch with
      | Ret output =>
          if startswith (strip output) "feature/IOS-" then
            ∃ task_id, is_task_id (strip output) task_id
              ∧ suggestions = (λ s, (task_id ++ ": ") ++ strip s)
                                <$> filter (λ s, ¬ blank s) (normalize_messages content)
          else suggestions = normalize_messages content
      | Raise e => e = CalledProcessError ∧ suggestions = normalize_messages content
      end.
Proof.
  pattern ((main W []).2).
  match goal with |- ?P ?t => set (Q := P) end.
  unfold_main. explore; leaf.
  all: subst Q; cbv beta.
  all: intros Hin; in_main Hin; simplify_eq.
  all: match goal with
       | H : process_response (Some ?r) = Ret ?l |- _ =>
           let Hne := fresh "Hne" in
           assert (l ≠ []) as Hne
             by (first [done | intros ->;
                               match goal with
                               | Hc : comprehension _ _ [] = _ :: _ |- _ => discriminate Hc
                               end]);
           destruct (process_response_Some r l H Hne) as (content & Hcontent & ?)
       end.
  all: simplify_eq.
  all: lazymatch goal with
       | |- context [Choose (?x :: ?xs ++ _) _] => eexists _, _, _, _, content, _, (x :: xs)
       end.
  all: split; [apply list_elem_of_further, elem_of_app; right; solve_in|].
  all: split; [exact Hcontent|].
  all: split; [show_precedes|].
  all: split; [reflexivity|]; split; [done|].
  all: repeat match goal with
       | H : startswith _ _ = _ |- _ => rewrite H; clear H
       end.
  all: first
    [ done
    | split; done
    | eexists; split; [apply task_id_spec|];
      match goal with
      | Hc : comprehension _ _ _ = _ |- _ =>
          rewrite prefix_comprehension in Hc; symmetry; exact Hc
      end ].
Qed.

(** In the run in which everything succeeds. *)
Lemma choices_from_reply_witness :
  ∃ suggestions : list str,
    ["IOS-42: Fix login crash" : str; "IOS-42: Add tests" : str;
     "Enter your own commit message" : str]
    = suggestions ++ ["Enter your own commit message" : str]
    ∧ suggestions ≠ [].
Proof.
  assert (Choose ["IOS-42: Fix login crash" : str; "IOS-42: Add tests" : str;
                  "Enter your own commit message" : str]
                 (Ret (Some ("IOS-42: Add tests" : str)))
          ∈ (main Sample.happy []).2) as H by (vm_compute; solve_in).
  destruct (choices_from_reply Sample.happy _ _ H)
    as (_ & _ & _ & _ & _ & _ & suggestions & _ & _ & _ & Hchoices & Hne & _).
  by exists suggestions.
Defined.

(** ** From the answer to the commit *)

(** X20.  The answer to the list prompt is committed: a suggestion that was
    chosen is the message of the commit that follows, as it is; after the
    entry for an own message, the user is asked for the message, then git for
    the branch, and what was typed is committed behind the prefix of the
    branch (behind nothing when git fails with [CalledProcessError]). *)
Theorem answer_is_committed (W : World) (choices : list str) (answer : str) :
  Choose choices (Ret (Some answer)) ∈ (main W []).2 →
  if bool_decide (answer = "Enter your own commit message") then
    ∃ a, precedes (Choose choices (Ret (Some answer)))
                  (Input "Enter your commit message: " a) (main W []).2
      ∧ ∀ typed, a = Ret typed →
          ∃ b, precedes (Input "Enter your commit message: " a) (GitBranch b) (main W []).2
            ∧ match b with
              | Ret output =>
                  ∃ (commit_message prefix : str) (r : outcome str),
                    precedes (GitBranch b) (GitCommit commit_message r) (main W []).2
                    ∧ commit_message = prefix ++ typed
                    ∧ if startswith (strip output) "feature/IOS-"
                      then ∃ task_id,
                             is_task_id (strip output) task_id ∧ prefix = task_id ++ ": "
                      else prefix = []
              | Raise e =>
                  is_CalledProcessError e = true →
                  ∃ r, precedes (GitBranch b) (GitCommit typed r) (main W []).2
              end
  else ∃ r, precedes (Choose choices (Ret (Some answer))) (GitCommit answer r) (main W []).2.
Proof.
  pattern ((main W []).2).
  match goal with |- ?P ?t => set (Q := P) end.
  unfold_main. explore; leaf.
  all: subst Q; cbv beta.
  all: intros Hin; in_main Hin; simplify_eq.
  all: match goal with
       | H : bool_decide (_ = _) = _ |- _ => rewrite H
       end.
  all: try (eexists; show_precedes; fail).
  all: eexists; split; [show_precedes|]; intros typed Htyped; simplify_eq.
  all: eexists; split; [show_precedes|]; cbv beta iota.
  all: try (intros Hcpe;
            first [ discriminate Hcpe | congruence | eexists; show_precedes ]; fail).
  all: lazymatch goal with
       | |- context [if startswith (strip ?o) ?p then _ else _] =>
           lazymatch goal with
           | H : startswith (strip o) p = true |- _ =>
               eexists _, (List.last (split (hd [] (split (strip o) "--")) "/") [] ++ ": "), _;
               rewrite H
           | H : startswith (strip o) p = false |- _ =>
               eexists _, [], _; rewrite H
           end
       end.
  all: split; [show_precedes|].
  all: split; [first [reflexivity | apply app_assoc | apply prefixed_message]|].
  all: first [reflexivity | eexists; split; [apply task_id_spec|reflexivity]].
Qed.

(** In the run in which everything succeeds. *)
Lemma answer_is_committed_witness :
  ∃ r, precedes (Choose ["IOS-42: Fix login crash" : str; "IOS-42: Add tests" : str;
                         "Enter your own commit message" : str]
                        (Ret (Some ("IOS-42: Add tests" : str))))
                (GitCommit "IOS-42: Add tests" r) (main Sample.happy []).2.
Proof.
  assert (Choose ["IOS-42: Fix login crash" : str; "IOS-42: Add tests" : str;
                  "Enter your own commit message" : str]
                 (Ret (Some ("IOS-42: Add tests" : str)))
          ∈ (main Sample.happy []).2) as H by (vm_compute; solve_in).
  exact (answer_is_committed Sample.happy _ _ H).
Defined.

(** ** Nothing to commit *)

(** X21.  When git prints an empty diff, the run ends there, without an
    exception: no tokens are counted, nothing is sent, nothing is asked. *)
Theorem empty_diff_ends_run (W : World) (cmd : json) :
  GitDiff cmd (Ret []) ∈ (main W []).2 →
  (main W []).1 = Ret () ∧ ∃ t1, (main W []).2 = t1 ++ [GitDiff cmd (Ret [])].
Proof.
  pattern (main W []).
  match goal with |- ?P ?t => set (Q := P) end.
  unfold_main. explore; leaf.
  all: subst Q; cbv beta; cbn [fst snd].
  all: intros Hin; in_main Hin; simplify_eq.
  all: split; [reflexivity|].
  all: lazymatch goal with
       | |- context [Enter F_load_config :: ?l ++ _] =>
           exists (Enter F_load_config :: l ++ [Enter F_get_git_diff])
       end.
  all: cbn [app]; by rewrite <- app_assoc.
Qed.

Lemma empty_diff_ends_run_witness :
  (main (Sample.on_branch "main") []).1 = Ret ()
  ∧ ∃ t1, (main (Sample.on_branch "main") []).2
          = t1 ++ [GitDiff (JArr [JStr "git"; JStr "diff"; JStr "--cached"]) (Ret [])].
Proof.
  apply (empty_diff_ends_run (Sample.on_branch "main")).
  vm_compute. solve_in.
Defined.

(** ** Counting the calls of a run *)

Lemma calls_app (p : event → bool) (t1 t2 : list event) :
  calls p (t1 ++ t2) = calls p t1 + calls p t2.
Proof. unfold calls. by rewrite List.filter_app, length_app. Qed.

Lemma calls_config (p : event → bool) (l : list event) :
  (∀ e, e ∈ l → config_event e = true) →
  (∀ e, config_event e = true → p e = false) →
  calls p l = 0.
Proof.
  intros Hall Hp. induction l as [|e l IH]; [done|].
  unfold calls in *. cbn [List.filter].
  rewrite (Hp e) by (apply Hall; by left).
  apply IH. intros. apply Hall. by right.
Qed.

Lemma calls_main (p : event → bool) (l rest : list event) :
  (∀ e, e ∈ l → config_event e = true) →
  (∀ e, config_event e = true → p e = false) →
  p (Enter F_load_config) = false →
  calls p (Enter F_load_config :: l ++ rest) = calls p rest.
Proof.
  intros Hall Hp Henter.
  change (Enter F_load_config :: l ++ rest) with ([Enter F_load_config] ++ l ++ rest).
  rewrite !calls_app, (calls_config p l Hall Hp).
  unfold calls at 1. cbn [List.filter]. by rewrite Henter.
Qed.

Lemma occurrences_spec (p : event → bool) (t t1 t2 : list event) (e : event) :
  t = t1 ++ e :: t2 → p e = true → (e, t2) ∈ occurrences p t.
Proof.
  intros -> Hp. induction t1 as [|x t1 IH]; simpl.
  - rewrite Hp. by left.
  - destruct (p x); [by right|done].
Qed.

Lemma occurrences_app_nil (p : event → bool) (l rest : list event) :
  occurrences p l = [] → occurrences p (l ++ rest) = occurrences p rest.
Proof.
  induction l as [|e l IH]; [done|]. simpl. destruct (p e); [done|]. apply IH.
Qed.

Lemma occurrences_config (p : event → bool) (l : list event) :
  (∀ e, e ∈ l → config_event e = true) →
  (∀ e, config_event e = true → p e = false) →
  occurrences p l = [].
Proof.
  intros Hall Hp. induction l as [|e l IH]; [done|]. simpl.
  rewrite (Hp e) by (apply Hall; by left).
  apply IH. intros. apply Hall. by right.
Qed.

Lemma occurrences_main (p : event → bool) (l rest : list event) :
  occurrences p l = [] → p (Enter F_load_config) = false →
  occurrences p (Enter F_load_config :: l ++ rest) = occurrences p rest.
Proof. intros Hl Henter. simpl. rewrite Henter. by apply occurrences_app_nil. Qed.

Lemma config_not_commit (e : event) : config_event e = true → is_commit e = false.
Proof. by destruct e. Qed.

(** X22.  A run fetches the diff, sends a request, shows the list prompt and
    commits at most once each, and it asks git for the branch at most twice
    (for the suggestions, and for an own message); nothing follows a commit. *)
Theorem main_calls_once (W : World) :
  calls is_GitDiff (main W []).2 ≤ 1
  ∧ calls is_Post (main W []).2 ≤ 1
  ∧ calls is_Choose (main W []).2 ≤ 1
  ∧ calls is_commit (main W []).2 ≤ 1
  ∧ calls is_GitBranch (main W []).2 ≤ 2
  ∧ (∀ t1 e t2, (main W []).2 = t1 ++ e :: t2 → is_commit e = true → t2 = []).
Proof.
  assert (calls is_GitDiff (main W []).2 ≤ 1
          ∧ calls is_Post (main W []).2 ≤ 1
          ∧ calls is_Choose (main W []).2 ≤ 1
          ∧ calls is_commit (main W []).2 ≤ 1
          ∧ calls is_GitBranch (main W []).2 ≤ 2
          ∧ Forall (λ et : event * list event, et.2 = [])
                   (occurrences is_commit (main W []).2)) as H.
  { pattern ((main W []).2).
    match goal with |- ?P ?t => set (Q := P) end.
    unfold_main. explore; leaf.
    all: subst Q; cbv beta.
    all: rewrite !(calls_main _ _ _ Hcfg) by first [reflexivity | by intros []].
    all: rewrite (occurrences_main is_commit _ _
                    (occurrences_config is_commit _ Hcfg config_not_commit) eq_refl).
    all: cbn [occurrences is_commit].
    all: repeat split; try (vm_compute; lia).
    all: repeat constructor. }
  destruct H as (H1 & H2 & H3 & H4 & H5 & H6).
  repeat (split; [done|]).
  intros t1 e t2 Ht He. rewrite Forall_forall in H6.
  exact (H6 _ (occurrences_spec _ _ _ _ _ Ht He)).
Qed.

(** ** Calls that raise *)

Lemma occurrences_sat (p : event → bool) (t : list event) :
  Forall (λ et : event * list event, p et.1 = true) (occurrences p t).
Proof.
  induction t as [|e t IH]; simpl; [constructor|].
  destruct (p e) eqn:Hp; [by constructor|done].
Qed.

(** In [load_config], the call that raises is the last one, and what it
    raises is what [load_config] raises. *)
Lemma load_config_raising (W : World) (h : list event) :
  Forall (λ et : event * list event,
            config_event et.1 = true ∧ et.2 = []
            ∧ ∀ x, raised et.1 = Some x → (load_config W h).1 = Raise x)
         (occurrences is_raise (load_config W h).2).
Proof.
  pattern (load_config W h).
  match goal with |- ?P ?t => set (Q := P) end.
  cbv [load_config mbind M_bind mret M_ret bind ret raise lift try ask call].
  explore; subst Q; cbv beta; cbn [app fst snd occurrences is_raise raised failure].
  all: repeat (apply Forall_cons; split; [|]); try apply Forall_nil_2.
  all: cbn [fst snd raised failure]; repeat split; intros x [= <-]; reflexivity.
Qed.

Lemma load_config_Ret_raising (W : World) (h : list event) (config : json) (l : list event) :
  load_config W h = (Ret config, l) → occurrences is_raise l = [].
Proof.
  intros Hrun. pose proof (load_config_raising W h) as Hall.
  pose proof (occurrences_sat is_raise l) as Hsat.
  rewrite Hrun in Hall. cbn [fst snd] in Hall.
  destruct (occurrences is_raise l) as [|[e t2] rest]; [done|].
  apply Forall_cons in Hall as [(_ & _ & Hall) _].
  apply Forall_cons in Hsat as [Hsat _].
  unfold is_raise in Hsat. cbn [fst] in *.
  destruct (raised e) as [x|]; [|done]. by specialize (Hall x eq_refl).
Qed.

(** The end of a run after one call that raised. *)
Ltac raising_leaf :=
  cbn [fst snd raised failure]; intros ? [= <-];
  first
    [ left; split; [reflexivity|];
      cbn [fst is_GitDiff is_commit orb andb];
      repeat match goal with
        | H : is_KeyboardInterrupt _ = _ |- _ => rewrite H
        | H : is_CalledProcessError _ = _ |- _ => rewrite H
        end;
      rewrite ?orb_true_r; reflexivity
    | right; left; reflexivity
    | right; right; split; [reflexivity|];
      first [ reflexivity
            | match goal with
              | H : is_CalledProcessError _ = true |- _ => exact (bool_decide_eq_true_1 _ H)
              end ] ].

Lemma main_raising (W : World) :
  Forall (λ et : event * list event,
            ∀ x, raised et.1 = Some x → ends_with et x (main W []).1)
         (occurrences is_raise (main W []).2).
Proof.
  pattern (main W []).
  match goal with |- ?P ?t => set (Q := P) end.
  unfold_main. explore; leaf.
  all: subst Q; cbv beta; cbn [fst snd]; unfold ends_with.
  all: match goal with
       | H : load_config _ _ = (Ret _, _) |- _ =>
           rewrite (occurrences_main is_raise _ _ (load_config_Ret_raising _ _ _ _ H) eq_refl);
           cbn [occurrences is_raise raised failure];
           repeat (apply Forall_cons; split; [raising_leaf|]); apply Forall_nil_2
       | H : load_config ?W ?h = (Raise ?e, _) |- _ =>
           rewrite app_nil_r; cbn [occurrences is_raise raised];
           pose proof (load_config_raising W h) as Hall;
           rewrite H in Hall; cbn [fst snd] in Hall;
           eapply Forall_impl; [exact Hall|];
           intros [ev t2] (Hev & Ht2 & Hx) x Hr; cbn [fst snd] in *;
           specialize (Hx x Hr); injection Hx as <-;
           left; split; [done|];
           replace (is_GitDiff ev || is_commit ev) with false by (by destruct ev);
           cbn [andb];
           repeat match goal with
             | H : is_KeyboardInterrupt _ = _ |- _ => rewrite H
             end;
           rewrite ?orb_false_r; reflexivity
       end.
Qed.

(** X23.  A call that raises ends the run, unless it is the request to the
    API, or git failing with [CalledProcessError] to tell the branch.  The run
    then ends without an exception when what was raised is a
    [KeyboardInterrupt], or the [CalledProcessError] of the diff or of the
    commit; in any other case [main] raises what the call raised. *)
Theorem main_fail_stop (W : World) (t1 : list event) (e : event) (t2 : list event)
    (x : exn) :
  (main W []).2 = t1 ++ e :: t2 →
  raised e = Some x →
  (t2 = []
   ∧ (main W []).1
     = if is_KeyboardInterrupt x || (is_GitDiff e || is_commit e) && is_CalledProcessError x
       then Ret () else Raise x)
  ∨ is_Post e = true
  ∨ (is_GitBranch e = true ∧ x = CalledProcessError).
Proof.
  intros Ht Hx. pose proof (main_raising W) as Hall. rewrite Forall_forall in Hall.
  assert (is_raise e = true) as He by (unfold is_raise; by rewrite Hx).
  exact (Hall _ (occurrences_spec _ _ _ _ _ Ht He) x Hx).
Qed.

(** The run in which git cannot tell the diff. *)
Lemma main_fail_stop_witness :
  (main Sample.key_missing []).2
  = [Enter F_load_config; ReadConfig (Ret (Sample.fresh_config YOUR_TOKEN_KEY "IOS"));
     Input "Please enter your OpenAI API key: " (Sample.ok "sk-typed");
     Enter F_get_git_diff]
    ++ GitDiff (JArr [JStr "git"; JStr "diff"; JStr "--cached"]) (Raise CalledProcessError)
    :: []
  ∧ (main Sample.key_missing []).1 = Ret ().
Proof.
  assert ((main Sample.key_missing []).2
    = [Enter F_load_config; ReadConfig (Ret (Sample.fresh_config YOUR_TOKEN_KEY "IOS"));
       Input "Please enter your OpenAI API key: " (Sample.ok "sk-typed");
       Enter F_get_git_diff]
      ++ GitDiff (JArr [JStr "git"; JStr "diff"; JStr "--cached"]) (Raise CalledProcessError)
      :: []) as Ht by (vm_compute; reflexivity).
  split; [exact Ht|].
  destruct (main_fail_stop Sample.key_missing _ _ _ CalledProcessError Ht eq_refl)
    as [[_ Hr]|[Hpost|[Hbranch _]]]; [exact Hr|discriminate Hpost|discriminate Hbranch].
Defined.
